(** * Solar challenge: the missing-data filter, the metric aggregator,
      the loader and the ranking table

    A shallow embedding of
    - [src/data_processing.py]  ([SolarDataCleaner.drop_high_missing]),
    - [app/utils.py]            ([load_data], [calculate_metrics]),
    - [app/main.py]             (the ranking table of [show_regional_rankings]),
    over a small model of the pandas objects these functions touch.

    Conventions.
    - A float is a [fval]: a rational, one of the two infinities, or NaN.
      Comparisons with NaN are false, as in IEEE 754.  The quotient of two
      counts and the rounding to two decimals are rounded to binary64
      ([fl64]: to nearest, ties to even); the sums and halves of ranks are
      small half-integers, which binary64 holds exactly.
    - A [DataFrame] is a row count and an ordered list of labelled columns.
      Labels may repeat, as pandas allows.
    - A Python call that can raise returns a [result].
    - The cleaner is an object holding a reference to its table; objects
      live in a heap, and a method takes a heap to a result and a heap.
    - The loader reads a file system, given as a function from paths to
      what [Path.exists] and [pd.read_csv] find there, and returns the lines
      it prints together with its value.
    - The ranking starts from the table that [groupby(...).agg(...)]
      produces, one row of floats per country. *)

From Stdlib Require Import QArith Qround Qpower Lqa.
From Stdlib Require SpecFloat.
From stdpp Require Import gmap strings list sorting.

Local Open Scope string_scope.
Local Open Scope list_scope.

(** ** Floats *)

Module Float.

Inductive fval : Type :=
| NaN
| NInf
| Fin (q : Q)
| PInf.

Definition Qltb (x y : Q) : bool := negb (Qle_bool y x).

(** [a < b], [a <= b], [a == b], [a > b], [a >= b] on floats. *)
Definition fltb (a b : fval) : bool :=
  match a, b with
  | NaN, _ | _, NaN => false
  | NInf, NInf => false
  | NInf, _ => true
  | Fin _, NInf => false
  | Fin x, Fin y => Qltb x y
  | Fin _, PInf => true
  | PInf, _ => false
  end.

Definition feqb (a b : fval) : bool :=
  match a, b with
  | NInf, NInf | PInf, PInf => true
  | Fin x, Fin y => Qeq_bool x y
  | _, _ => false
  end.

Definition fleb (a b : fval) : bool := fltb a b || feqb a b.
Definition fgtb (a b : fval) : bool := fltb b a.
Definition fgeb (a b : fval) : bool := fleb b a.

Definition isnan (a : fval) : bool :=
  match a with NaN => true | _ => false end.

Definition fadd (a b : fval) : fval :=
  match a, b with
  | NaN, _ | _, NaN => NaN
  | PInf, NInf | NInf, PInf => NaN
  | PInf, _ | _, PInf => PInf
  | NInf, _ | _, NInf => NInf
  | Fin x, Fin y => Fin (x + y)
  end.

(** Division by a non-zero finite constant, the only division of the
    ranking table ([/ 2]). *)
Definition fdiv_pos (a : fval) (k : positive) : fval :=
  match a with
  | Fin x => Fin (x / (Zpos k # 1))
  | other => other
  end.

(** The same float: numerically equal, or the same special value. *)
Definition fsame (a b : fval) : Prop :=
  match a, b with
  | NaN, NaN | NInf, NInf | PInf, PInf => True
  | Fin x, Fin y => (x == y)%Q
  | _, _ => False
  end.

(** [numpy.rint]: the nearest integer, halves to the even neighbour. *)
Definition rint (x : Q) : Z :=
  let f := Qfloor x in
  let r := (x - inject_Z f)%Q in
  if Qltb r (1 # 2) then f
  else if Qltb (1 # 2) r then (f + 1)%Z
  else if Z.even f then f else (f + 1)%Z.

Definition fneg (a : fval) : fval :=
  match a with
  | NaN => NaN
  | NInf => PInf
  | Fin x => Fin (- x)
  | PInf => NInf
  end.

(** *** Rounding to binary64

    A binary64 number is a multiple [m * 2^e] of a power of two with
    [|m| < 2^53] and [-1074 <= e <= 971]. *)

(** For [0 < x], the [k] with [2^k <= x < 2^(k+1)]. *)
Definition binade (x : Q) : Z :=
  let d := (Z.log2 (Qnum x) - Z.log2 (Zpos (Qden x)))%Z in
  if Qle_bool (2 ^ d) x then d else (d - 1)%Z.

(** The exponent of the unit in the last place: 53 digits, and no exponent
    below -1074 (gradual underflow). *)
Definition ulp_exp (x : Q) : Z := Z.max (binade x - 52) (-1074).

(** The nearest multiple of the unit in the last place, ties to even. *)
Definition nearest (x : Q) : Q :=
  let e := ulp_exp x in (inject_Z (rint (x / 2 ^ e)) * 2 ^ e)%Q.

(** Overflow to infinity from [2^1024] on. *)
Definition round_pos (x : Q) : fval :=
  let v := nearest x in
  if Qle_bool (2 ^ 1024) v then PInf else Fin (Qred v).

(** The binary64 nearest to a rational. *)
Definition fl64 (x : Q) : fval :=
  match Qnum x with
  | Z0 => Fin 0
  | Zpos _ => round_pos x
  | Zneg _ => fneg (round_pos (- x))
  end.

(** [numpy.round(x, 2)] = [rint (x * 100) / 100], the product and the
    quotient in binary64. *)
Definition round2 (a : fval) : fval :=
  match a with
  | Fin x =>
      match fl64 (x * 100) with
      | Fin y => fl64 (inject_Z (rint y) / 100)
      | other => other
      end
  | other => other
  end.

End Float.
Export Float.

(** ** Exceptions *)

Inductive exn : Type :=
| KeyError (labels : list string)
| TypeError
| AttributeError
| ValueError
| InvalidIndexError
| ParserError (path : string).

Inductive result (A : Type) : Type :=
| Ok (a : A)
| Raise (e : exn).
Arguments Ok {A} a.
Arguments Raise {A} e.

Definition rbind {A B} (r : result A) (k : A → result B) : result B :=
  match r with
  | Ok a => k a
  | Raise e => Raise e
  end.

#[global] Instance result_fmap : FMap result :=
  λ A B f r, rbind r (λ a, Ok (f a)).

(** ** The pandas objects *)

Module Pandas.

Inductive cell : Type :=
| NA
| Num (q : Q)
| Str (s : string).

Definition isna (c : cell) : bool :=
  match c with NA => true | _ => false end.

Abbreviation column := (list cell) (only parsing).

Record DataFrame : Type := mkDataFrame {
  nrows : nat;                          (* len(df) *)
  columns : list (string * column)      (* in column order *)
}.

(** Every column has one cell per row. *)
Definition wf (d : DataFrame) : Prop :=
  Forall (λ c, length c.2 = nrows d) (columns d).

Definition labels (d : DataFrame) : list string := (columns d).*1.

(** A Series of floats indexed by column label. *)
Abbreviation Series := (list (string * fval)) (only parsing).

(** Number of missing cells of a column. *)
Definition count_na (c : column) : nat := length (filter (λ x, isna x = true) c).

(** [mean] of a boolean column: NaN over no rows, else the binary64
    quotient trues / rows (both counts are exact in binary64). *)
Definition bool_mean (trues rows : nat) : fval :=
  match rows with
  | O => NaN
  | S _ => fl64 (Z.of_nat trues # Pos.of_nat rows)
  end.

(** The missing fraction of one column. *)
Definition missing_fraction (c : column) : fval :=
  bool_mean (count_na c) (length c).

(** [df.isna().mean()] *)
Definition isna_mean (d : DataFrame) : Series :=
  (λ c, (c.1, missing_fraction c.2)) <$> columns d.

(** [s[s > threshold].index.tolist()] *)
Definition index_where_gt (s : Series) (threshold : fval) : list string :=
  (filter (λ e, fgtb e.2 threshold = true) s).*1.

(** [df.drop(columns=ls)]: a new frame without the columns whose label is
    in [ls]; [KeyError] when some label of [ls] is not a column label. *)
Definition drop (d : DataFrame) (ls : list string) : result DataFrame :=
  match filter (λ l, l ∉ labels d) ls with
  | [] => Ok (mkDataFrame (nrows d) (filter (λ c, c.1 ∉ ls) (columns d)))
  | missing => Raise (KeyError missing)
  end.

(** [df[label]]: the columns carrying that label; [KeyError] when none. *)
Definition getitem (d : DataFrame) (label : string) : result (list column) :=
  match filter (λ c, c.1 = label) (columns d) with
  | [] => Raise (KeyError [label])
  | sel => Ok (sel.*2)
  end.

End Pandas.
Export Pandas.

(** ** [src/data_processing.py] *)

Module DataProcessing.

(** The method body (lines 25-27) on the table held by the cleaner. *)
Definition drop_high_missing_df (df : DataFrame) (threshold : fval)
  : result DataFrame :=
  let missing_frac := isna_mean df in
  let cols_to_drop := index_where_gt missing_frac threshold in
  drop df cols_to_drop.

(** *** The cleaner as an object

    The cleaner keeps a reference to the table it was built with, and
    [DataFrame.drop] hands back a new object.  Objects live in a heap;
    a method is a heap transformer that may raise. *)

Abbreviation loc := nat (only parsing).

Inductive obj : Type :=
| ODataFrame (d : DataFrame)
| OCleaner (df : loc).        (* a SolarDataCleaner and its attribute df *)

Definition M (A : Type) : Type := gmap loc obj → result A * gmap loc obj.

Definition ret {A} (a : A) : M A := λ h, (Ok a, h).

Definition bind {A B} (m : M A) (k : A → M B) : M B :=
  λ h, match m h with
       | (Ok a, h') => k a h'
       | (Raise e, h') => (Raise e, h')
       end.

Definition lift {A} (r : result A) : M A := λ h, (r, h).

Notation "'do' x <- m ; k" := (bind m (λ x, k))
  (at level 10, x name, m at level 100, k at level 200,
   format "'[v' 'do'  x  <-  m ; '/' k ']'").

Definition alloc (o : obj) : M loc :=
  λ h, let l := fresh (dom h) in (Ok l, <[l := o]> h).

(** [self.df] *)
Definition attr_df (self : loc) : M loc :=
  λ h, match h !! self with
       | Some (OCleaner l) => (Ok l, h)
       | _ => (Raise AttributeError, h)
       end.

(** Use of an object as a DataFrame. *)
Definition frame_at (l : loc) : M DataFrame :=
  λ h, match h !! l with
       | Some (ODataFrame d) => (Ok d, h)
       | _ => (Raise AttributeError, h)
       end.

(** [SolarDataCleaner(df)] (lines 12-16): [self.df = df] keeps the
    reference, not a copy. *)
Definition SolarDataCleaner (df : loc) : M loc := alloc (OCleaner df).

(** [cleaner.drop_high_missing(threshold)] (lines 18-27): the table is
    read through [self.df] and the frame built by [drop] is a new object. *)
Definition drop_high_missing (self : loc) (threshold : fval) : M loc :=
  do dfl <- attr_df self;
  do df <- frame_at dfl;
  do cleaned <- lift (drop_high_missing_df df threshold);
  alloc (ODataFrame cleaned).

End DataProcessing.
Export DataProcessing.

(** ** [app/utils.py] *)

Module Utils.

(** *** pandas operations used by the loader *)

(** [df[label] = v] with a scalar [v]: every column carrying the label is
    overwritten; without one, a new last column is added. *)
Definition setitem_scalar (d : DataFrame) (label : string) (v : cell)
  : DataFrame :=
  if decide (label ∈ labels d) then
    mkDataFrame (nrows d)
      ((λ c, if decide (c.1 = label) then (c.1, replicate (nrows d) v) else c)
         <$> columns d)
  else
    mkDataFrame (nrows d) (columns d ++ [(label, replicate (nrows d) v)]).

(** The cells a frame contributes to the column [label] of a concatenation:
    its own column, or missing values. *)
Definition cells_for (label : string) (d : DataFrame) : column :=
  match filter (λ c, c.1 = label) (columns d) with
  | c :: _ => c.2
  | [] => replicate (nrows d) NA
  end.

(** Labels of a list of frames in order of first appearance: each frame
    adds, in its own order, the labels not seen before it. *)
Definition union_labels (ds : list DataFrame) : list string :=
  foldl (λ seen d, seen ++ filter (λ l, l ∉ seen) (labels d)) [] ds.

(** [pd.concat(ds, ignore_index=True)]. *)
Definition concat (ds : list DataFrame) : result DataFrame :=
  match ds with
  | [] => Raise ValueError
  | d0 :: _ =>
      let rows := sum_list (nrows <$> ds) in
      if decide (Forall (λ d, labels d = labels d0) ds) then
        Ok (mkDataFrame rows
              (imap (λ i c, (c.1, mjoin ((λ d, default [] ((columns d).*2 !! i)) <$> ds)))
                    (columns d0)))
      else if decide (Forall (λ d, NoDup (labels d)) ds) then
        Ok (mkDataFrame rows
              ((λ l, (l, mjoin (cells_for l <$> ds))) <$> union_labels ds))
      else Raise InvalidIndexError
  end.

(** *** [load_data] *)

(** What is at a path: nothing, or a file on which [pd.read_csv] returns
    a frame or raises. *)
Inductive file : Type :=
| Missing
| Present (read_csv : result DataFrame).

(** The lines printed by the loader. *)
Inductive line : Type :=
| Warning_not_found (path : string)
| Error_loading_data (e : exn).

Section Loader.

Variable data_dir : string.

Definition file_paths : list (string * string) :=
  [("Benin", data_dir +:+ "/benin_clean.csv");
   ("Sierra Leone", data_dir +:+ "/sierraleone_clean.csv");
   ("Togo", data_dir +:+ "/togo_clean.csv")].

(** The [for] loop (lines 31-37): the printed lines and the list
    [dataframes], or the exception that left the loop. *)
Fixpoint load_loop (fs : string → file) (paths : list (string * string))
    (dataframes : list DataFrame) : list line * result (list DataFrame) :=
  match paths with
  | [] => ([], Ok dataframes)
  | (country, file_path) :: rest =>
      match fs file_path with
      | Present (Ok df) =>
          load_loop fs rest
            (dataframes ++ [setitem_scalar df "Country" (Str country)])
      | Present (Raise e) => ([], Raise e)
      | Missing =>
          let '(out, r) := load_loop fs rest dataframes in
          (Warning_not_found file_path :: out, r)
      end
  end.

(** [load_data()] (lines 15-48): the printed lines and the returned value
    ([None] is Python's [None]).  The [try] turns every exception into a
    printed line and [None]. *)
Definition load_data (fs : string → file) : list line * option DataFrame :=
  let '(out, r) := load_loop fs file_paths [] in
  match r with
  | Raise e => (out ++ [Error_loading_data e], None)
  | Ok [] => (out, None)
  | Ok dataframes =>
      match concat dataframes with
      | Ok df_all => (out, Some df_all)
      | Raise e => (out ++ [Error_loading_data e], None)
      end
  end.

End Loader.

(** *** Reductions of a column

    Finite arithmetic is exact; a standard deviation is kept as the square
    root of a rational. *)

Inductive stat : Type :=
| Val (v : fval)
| Sqrt (q : Q).

(** The numbers of a column, missing cells skipped; [TypeError] on text. *)
Fixpoint numbers (c : column) : result (list Q) :=
  match c with
  | [] => Ok []
  | NA :: rest => numbers rest
  | Num q :: rest => rbind (numbers rest) (λ qs, Ok (q :: qs))
  | Str _ :: _ => Raise TypeError
  end.

Definition Qsum (qs : list Q) : Q := foldr Qplus 0%Q qs.

Definition Qmean (qs : list Q) : Q := (Qsum qs / inject_Z (Z.of_nat (length qs)))%Q.

Fixpoint Qinsert (x : Q) (qs : list Q) : list Q :=
  match qs with
  | [] => [x]
  | y :: rest => if Qle_bool x y then x :: qs else y :: Qinsert x rest
  end.

Definition Qsort (qs : list Q) : list Q := foldr Qinsert [] qs.

Definition column_mean (c : column) : result stat :=
  rbind (numbers c) (λ qs,
    Ok (Val (match qs with [] => NaN | _ => Fin (Qmean qs) end))).

Definition column_median (c : column) : result stat :=
  rbind (numbers c) (λ qs,
    let s := Qsort qs in
    let n := length s in
    Ok (Val (match n with
             | O => NaN
             | _ => if Nat.even n
                    then Fin ((default 0%Q (s !! (n / 2 - 1)%nat)
                               + default 0%Q (s !! (n / 2)%nat)) / 2)
                    else Fin (default 0%Q (s !! (n / 2)%nat))
             end))).

(** Sample standard deviation ([ddof = 1]); NaN for fewer than two numbers. *)
Definition column_std (c : column) : result stat :=
  rbind (numbers c) (λ qs,
    match qs with
    | [] | [_] => Ok (Val NaN)
    | _ =>
        let m := Qmean qs in
        Ok (Sqrt (Qsum ((λ x, (x - m) * (x - m))%Q <$> qs)
                  / inject_Z (Z.of_nat (length qs - 1))))
    end).

(** A reduction of [df[metric]]: one value per selected column. *)
Fixpoint reduce (f : column → result stat) (sel : list column)
  : result (list stat) :=
  match sel with
  | [] => Ok []
  | c :: rest => rbind (f c) (λ v, rbind (reduce f rest) (λ vs, Ok (v :: vs)))
  end.

(** *** [calculate_metrics] (lines 82-91)

    The dictionary is built entry by entry: three accesses to [df[metric]],
    each followed by its reduction, then [len(df)]. *)

Record Metrics : Type := mkMetrics {
  mean : list stat;
  median : list stat;
  std : list stat;
  count : nat
}.

Definition calculate_metrics (df : DataFrame) (metric : string)
  : result Metrics :=
  rbind (getitem df metric) (λ s1, rbind (reduce column_mean s1) (λ mean_,
  rbind (getitem df metric) (λ s2, rbind (reduce column_median s2) (λ median_,
  rbind (getitem df metric) (λ s3, rbind (reduce column_std s3) (λ std_,
  Ok (mkMetrics mean_ median_ std_ (nrows df)))))))).

(** *** Boolean indexing

    [df[df[label] == value]] and [df[df[label].isin(values)]]. *)

(** [a == b] on two cells: false when either is missing. *)
Definition cell_eqb (a b : cell) : bool :=
  match a, b with
  | Num x, Num y => Qeq_bool x y
  | Str s, Str s' => bool_decide (s = s')
  | _, _ => false
  end.

(** Membership as [isin] tests it: as [==], and a missing cell is found
    among values that hold a missing one. *)
Definition cell_isin (x : cell) (values : list cell) : bool :=
  existsb (λ v, match x, v with
                 | NA, NA => true
                 | _, _ => cell_eqb x v
                 end) values.

(** The entries of a column at the rows where the mask holds. *)
Fixpoint take_rows {A} (mask : list bool) (xs : list A) : list A :=
  match mask, xs with
  | b :: mask', x :: xs' =>
      if b then x :: take_rows mask' xs' else take_rows mask' xs'
  | _, _ => []
  end.

(** [df[mask]] for a boolean Series over the rows of [df]. *)
Definition getitem_mask (d : DataFrame) (mask : list bool) : DataFrame :=
  mkDataFrame (length (filter (λ b, b = true) mask))
              ((λ c, (c.1, take_rows mask c.2)) <$> columns d).

Section BooleanIndexing.

(** When several columns carry the label, [df[label]] is a frame, the
    comparison gives a frame of booleans, and indexing with it is
    [DataFrame.where]; what pandas does then is left open. *)
Variable where_frame : DataFrame → list (list bool) → result DataFrame.

(** [df[test(df[label])]] for an elementwise [test]. *)
Definition rows_where (d : DataFrame) (label : string) (test : cell → bool)
  : result DataFrame :=
  rbind (getitem d label) (λ sel,
    match sel with
    | [c] => Ok (getitem_mask d (test <$> c))
    | _ => where_frame d ((λ c : list cell, test <$> c) <$> sel)
    end).

(** [df[df[label] == value]] *)
Definition rows_eq (d : DataFrame) (label : string) (value : cell)
  : result DataFrame :=
  rows_where d label (λ x, cell_eqb x value).

(** [df[df[label].isin(values)]] *)
Definition rows_isin (d : DataFrame) (label : string) (values : list cell)
  : result DataFrame :=
  rows_where d label (λ x, cell_isin x values).

(** *** [get_country_summary] (lines 93-110) *)

Record Summary : Type := mkSummary {
  country : cell;
  records : nat;
  metrics : list (string * Metrics)     (* in insertion order *)
}.

Definition solar_metrics : list string := ["GHI"; "DNI"; "DHI"].

(** The [for] loop over [solar_metrics]: a metric that is not a column is
    passed over. *)
Fixpoint summary_metrics (country_data : DataFrame) (ms : list string)
  : result (list (string * Metrics)) :=
  match ms with
  | [] => Ok []
  | metric :: rest =>
      if decide (metric ∈ labels country_data) then
        rbind (calculate_metrics country_data metric) (λ m,
        rbind (summary_metrics country_data rest) (λ others,
        Ok ((metric, m) :: others)))
      else summary_metrics country_data rest
  end.

Definition get_country_summary (df : DataFrame) (country_ : cell)
  : result Summary :=
  rbind (rows_eq df "Country" country_) (λ country_data,
  rbind (summary_metrics country_data solar_metrics) (λ ms,
  Ok (mkSummary country_ (nrows country_data) ms))).

End BooleanIndexing.

End Utils.
Export Utils.

(** ** [app/main.py]: the ranking table *)

Module Main.

(** One row of [groupby('Country')[metric].agg([...])], indexed by country. *)
Record Agg : Type := mkAgg {
  Country : string;
  Average : fval;
  Median : fval;
  Stability : fval;
  Records : nat
}.

(** [.round(2)] on the float columns. *)
Definition round_row (a : Agg) : Agg :=
  mkAgg (Country a) (round2 (Average a)) (round2 (Median a))
        (round2 (Stability a)) (Records a).

Definition count_gt (vals : list fval) (v : fval) : nat :=
  length (filter (λ x, fgtb x v = true) vals).

Definition count_eq (vals : list fval) (v : fval) : nat :=
  length (filter (λ x, feqb x v = true) vals).

(** [Series.rank(ascending=False)] at an entry [v] of the series [vals]:
    pandas' default method, "average".  Sorted from the largest down, the
    entries equal to [v] take the places [g+1 .. g+e], with [g] entries
    greater than [v] and [e] equal to it; each gets the mean of those
    places, [g + (e + 1)/2].  NaN entries are not ranked and get NaN. *)
Definition rank_desc (vals : list fval) (v : fval) : fval :=
  if isnan v then NaN
  else Fin (Z.of_nat (2 * count_gt vals v + count_eq vals v + 1) # 2).

Record Ranked : Type := mkRanked {
  row : Agg;
  StabilityRank : fval;
  PotentialRank : fval;
  OverallScore : fval
}.

(** Lines 270-274 of [show_regional_rankings]: the rounding, the two rank
    columns and the score. *)
Definition rankings (aggs : list Agg) : list Ranked :=
  let rounded := round_row <$> aggs in
  (λ r,
     let sr := rank_desc (Stability <$> rounded) (Stability r) in
     let pr := rank_desc (Average <$> rounded) (Average r) in
     mkRanked r sr pr (fdiv_pos (fadd pr sr) 2)) <$> rounded.

(** *** Dense rank, as the specification words it

    Rank 1 for the highest value, ties share a rank, and the next distinct
    value gets the next integer: one more than the number of distinct
    values above. *)
Fixpoint distinct (vals : list fval) : list fval :=
  match vals with
  | [] => []
  | x :: rest => x :: filter (λ y, feqb y x = false) (distinct rest)
  end.

Definition spec_dense_rank_desc (vals : list fval) (v : fval) : fval :=
  if isnan v then NaN
  else Fin (inject_Z (Z.of_nat (1 + count_gt (distinct vals) v))).

(** *** [get_metric_unit] (lines 308-314) *)

Definition units : gmap string string :=
  list_to_map [("GHI", "W/m²"); ("DNI", "W/m²"); ("DHI", "W/m²");
               ("Tamb", "°C"); ("WS", "m/s"); ("RH", "%")].

(** [units.get(metric, '')] *)
Definition get_metric_unit (metric : string) : string :=
  default "" (units !! metric).

(** *** The cards of [show_regional_rankings] (lines 279-306) *)

(** The first position of the smallest entry that is not NaN, with that
    entry. *)
Fixpoint argmin (vals : list fval) : option (nat * fval) :=
  match vals with
  | [] => None
  | v :: rest =>
      match argmin rest with
      | None => if isnan v then None else Some (0%nat, v)
      | Some (i, m) =>
          if isnan v then Some (S i, m)
          else if fleb v m then Some (0%nat, v) else Some (S i, m)
      end
  end.

(** [Series.idxmin()] followed by [.loc[...]]: the position of the row.
    On an empty or all-NaN series the pair raises ([ValueError] from
    [idxmin] itself, or [KeyError] from [.loc] on the NaN that older
    versions of pandas return). *)
Definition idxmin (vals : list fval) : result nat :=
  match argmin vals with
  | Some (i, _) => Ok i
  | None => Raise ValueError
  end.

(** [Series.max()]: the greatest entry that is not NaN, NaN without one. *)
Fixpoint series_max (vals : list fval) : fval :=
  match vals with
  | [] => NaN
  | v :: rest =>
      let m := series_max rest in
      if isnan v then m
      else if isnan m then v
      else if fltb v m then m else v
  end.

(** [rankings.loc[label].name]: the country of a row. *)
Definition name_at (rs : list Ranked) (i : nat) : result string :=
  match rs !! i with
  | Some r => Ok (Country (row r))
  | None => Raise (KeyError [])
  end.

(** What the page shows besides the table. *)
Record RankingCards : Type := mkRankingCards {
  best_potential : string;      (* "Best Solar Potential" *)
  best_average : fval;          (* its "Avg ..." line *)
  most_stable : string;         (* "Most Stable" *)
  best_stability : fval;        (* its "Stability Score" line *)
  best_country : string         (* the recommendation *)
}.

(** [show_regional_rankings] from the aggregated table on: the values
    that lines 279-306 compute, in the order they compute them.  The calls
    that only render ([st.metric], the styled table, [st.success]) are left
    out, and the rounding of the displayed copy (line 298) does not touch
    [rankings]. *)
Definition show_regional_rankings (aggs : list Agg) : result RankingCards :=
  let rankings := rankings aggs in
  rbind (idxmin (PotentialRank <$> rankings)) (λ i,
  rbind (name_at rankings i) (λ potential,
  let average := series_max ((λ r, Average (row r)) <$> rankings) in
  rbind (idxmin (StabilityRank <$> rankings)) (λ j,
  rbind (name_at rankings j) (λ stable,
  let stability := series_max ((λ r, Stability (row r)) <$> rankings) in
  rbind (idxmin (OverallScore <$> rankings)) (λ k,
  rbind (name_at rankings k) (λ best,
  Ok (mkRankingCards potential average stable stability best))))))).

(** *** The cards of [show_country_comparison] (lines 119-144)

    The values the page computes; of the calls that render, only the one
    that builds the figure is kept, as a parameter. *)

Record CountryCard : Type := mkCountryCard {
  card_country : cell;
  card_mean : list stat;
  card_median : list stat;
  card_records : nat;
  card_std : list stat
}.

Section Views.

Variable where_frame : DataFrame → list (list bool) → result DataFrame.

(** The figure of [create_comparison_plot] is opaque here. *)
Variable Figure : Type.
Variable create_comparison_plot :
  DataFrame → string → string → result Figure.

Inductive comparison : Type :=
| SelectWarning                 (* "Please select at least one country" *)
| Comparison (fig : Figure) (cards : list CountryCard).

(** One turn of the loop of lines 134-144. *)
Definition country_card (df_filtered : DataFrame) (metric : string)
    (country_ : cell) : result CountryCard :=
  rbind (rows_eq where_frame df_filtered "Country" country_) (λ country_data,
  rbind (getitem country_data metric) (λ s1,
  rbind (reduce column_mean s1) (λ mean_,
  rbind (getitem country_data metric) (λ s2,
  rbind (reduce column_median s2) (λ median_,
  rbind (getitem country_data metric) (λ s3,
  rbind (reduce column_std s3) (λ std_,
  Ok (mkCountryCard country_ mean_ median_ (nrows country_data) std_)))))))).

Fixpoint country_cards (df_filtered : DataFrame) (metric : string)
    (selected : list cell) : result (list CountryCard) :=
  match selected with
  | [] => Ok []
  | country_ :: rest =>
      rbind (country_card df_filtered metric country_) (λ card,
      rbind (country_cards df_filtered metric rest) (λ cards,
      Ok (card :: cards)))
  end.

Definition show_country_comparison (df_all : DataFrame)
    (metric plot_type : string) (selected_countries : list cell)
  : result comparison :=
  match selected_countries with
  | [] => Ok SelectWarning
  | _ =>
      rbind (rows_isin where_frame df_all "Country" selected_countries)
        (λ df_filtered,
      rbind (create_comparison_plot df_filtered metric plot_type) (λ fig,
      rbind (country_cards df_filtered metric selected_countries) (λ cards,
      Ok (Comparison fig cards))))
  end.

(** *** [main] (lines 54-91) *)

(** The four views: [show_country_comparison], [show_time_series],
    [show_weather_correlations] and [show_regional_rankings]. *)
Inductive page : Type :=
| CountryComparison
| TimeSeriesAnalysis
| WeatherCorrelations
| RegionalRankings.

(** What [main] does, in order. *)
Inductive ui : Type :=
| Header
| Subtitle
| SidebarTitle
| ModeSelect
| Printed (l : line)            (* a line printed by [load_data] *)
| ErrorNoData                   (* "Could not load data. ..." *)
| Call (p : page) (df_all : DataFrame)   (* a view called on the dataset *)
| Footer.

(** The options of the select box. *)
Definition modes : list string :=
  ["📊 Country Comparison"; "📈 Time Series Analysis";
   "🌡️ Weather Correlations"; "🏆 Regional Rankings"].

(** The four view functions as the dispatcher sees them: called on the
    dataset, they return or raise. *)
Variable show : page → DataFrame → result unit.

Variable data_dir : string.

(** A call of a view and what follows it (lines 84-91): the footer, unless
    the view raised. *)
Definition call_view (start : list ui) (p : page) (df_all : DataFrame)
  : list ui * result unit :=
  match show p df_all with
  | Ok _ => (start ++ [Call p df_all; Footer], Ok ())
  | Raise e => (start ++ [Call p df_all], Raise e)
  end.

Definition main (fs : string → file) (app_mode : string)
  : list ui * result unit :=
  let '(out, df_all) := load_data data_dir fs in
  let start := [Header; Subtitle; SidebarTitle; ModeSelect] ++ (Printed <$> out) in
  match df_all with
  | None => (start ++ [ErrorNoData], Ok ())
  | Some df_all =>
      if decide (app_mode = "📊 Country Comparison") then
        call_view start CountryComparison df_all
      else if decide (app_mode = "📈 Time Series Analysis") then
        call_view start TimeSeriesAnalysis df_all
      else if decide (app_mode = "🌡️ Weather Correlations") then
        call_view start WeatherCorrelations df_all
      else if decide (app_mode = "🏆 Regional Rankings") then
        call_view start RegionalRankings df_all
      else (start ++ [Footer], Ok ())
  end.

End Views.

End Main.
Export Main.

(** ** Sample inputs *)

Module Samples.

(** The scenario table of the specification: A has one missing cell in five. *)
Definition scenario : DataFrame :=
  mkDataFrame 5
    [("A", [Num 1; NA; Num 3; Num 4; Num 5]);
     ("B", [Num 1; Num 2; Num 3; Num 4; Num 5])].

(** The table of [test_module.py]. *)
Definition sample_data : DataFrame :=
  mkDataFrame 5
    [("solar_radiation", [Num 850; Num 920; NA; Num 780; Num 810]);
     ("temperature", [Num 25; Num (265 # 10); Num (248 # 10); NA; NA]);
     ("efficiency", [Num (85 # 100); Num (82 # 100); Num (79 # 100);
                     Num (81 # 100); Num (83 # 100)]);
     ("voltage", [Num 240; Num 238; Num 239; NA; Num 241])].

(** A has one missing cell in three. *)
Definition thirds : DataFrame :=
  mkDataFrame 3
    [("A", [Num 1; NA; Num 3]);
     ("B", [Num 1; Num 2; Num 3])].

(** The value of a Python float literal: the binary64 nearest to it. *)
Definition literal (x : Q) : Q :=
  match fl64 x with
  | Fin q => q
  | _ => x
  end.

(** Two columns share the label A; the first is all missing, the second
    has no missing cell. *)
Definition twins : DataFrame :=
  mkDataFrame 1 [("A", [NA]); ("A", [Num 1])].

(** A table with a column and no rows. *)
Definition no_rows : DataFrame := mkDataFrame 0 [("A", [])].

(** Only the file of Togo is there. *)
Definition togo_only (path : string) : file :=
  if decide (path = "data/togo_clean.csv") then Present (Ok scenario)
  else Missing.

(** The file of Benin is there but cannot be read; the other two are
    missing. *)
Definition benin_unreadable (path : string) : file :=
  if decide (path = "data/benin_clean.csv")
  then Present (Raise (ParserError path))
  else Missing.

(** The file of Benin is missing, the one of Sierra Leone cannot be read,
    the one of Togo is there. *)
Definition sierraleone_unreadable (path : string) : file :=
  if decide (path = "data/benin_clean.csv") then Missing
  else if decide (path = "data/sierraleone_clean.csv")
  then Present (Raise (ParserError path))
  else Present (Ok scenario).

(** The ranking scenario of the specification: X = [10, 20, 30] averages
    20 with standard deviation 10, Y = [12, 18, 15] averages 15 with
    standard deviation 3. *)
Definition groups_xy : list Agg :=
  [mkAgg "X" (Fin 20) (Fin 20) (Fin (1 # 10)) 3;
   mkAgg "Y" (Fin 15) (Fin 15) (Fin (1 # 3)) 3].

(** A leads B on both counts. *)
Definition groups_ab : list Agg :=
  [mkAgg "A" (Fin 20) (Fin 19) (Fin 2) 4;
   mkAgg "B" (Fin 15) (Fin 15) (Fin 1) 4].

(** Two groups with the same average. *)
Definition groups_tied : list Agg :=
  [mkAgg "X" (Fin 5) (Fin 5) (Fin 2) 3;
   mkAgg "Y" (Fin 5) (Fin 4) (Fin 1) 3].

(** Two groups whose averages differ before the rounding and agree after
    it: 0.015 and 0.02 in binary64 both round to 0.02. *)
Definition groups_rounded : list Agg :=
  [mkAgg "H" (Fin (literal (15 # 1000))) (Fin (literal (15 # 1000))) (Fin 2) 2;
   mkAgg "I" (Fin (literal (2 # 100))) (Fin (literal (2 # 100))) (Fin 1) 2].

(** A small dataset as the loader returns it. *)
Definition dataset : DataFrame :=
  mkDataFrame 3
    [("GHI", [Num 100; NA; Num 300]);
     ("Tamb", [Num 25; Num 26; Num 27]);
     ("Country", [Str "Benin"; Str "Benin"; Str "Togo"])].

(** A stand-in for what pandas does with a frame-shaped mask. *)
Definition no_where (d : DataFrame) (mask : list (list bool))
  : result DataFrame := Raise ValueError.

(** A stand-in for [create_comparison_plot], with a figure that says
    nothing. *)
Definition blank_plot (d : DataFrame) (metric plot_type : string)
  : result unit := Ok ().

(** A heap holding the scenario table at 0 and a cleaner of it at 1. *)
Definition heap0 : gmap loc obj :=
  <[1%nat := OCleaner 0]> (<[0%nat := ODataFrame scenario]> ∅).

End Samples.

(** ** Binary64, as the Standard Library specifies it

    [SpecFloat] is the specification of IEEE 754 arithmetic of the Standard
    Library; [fl64] and [round2] are compared with its division and
    multiplication on a grid of inputs. *)

(** The value of a float of [SpecFloat]. *)
Definition of_spec_float (f : SpecFloat.spec_float) : fval :=
  match f with
  | SpecFloat.S754_zero _ => Fin 0
  | SpecFloat.S754_infinity s => if s then NInf else PInf
  | SpecFloat.S754_nan => NaN
  | SpecFloat.S754_finite s m e =>
      Fin (Qred ((if s then -1 else 1) * inject_Z (Zpos m) * 2 ^ e))
  end.

Definition spec_nat (k : positive) : SpecFloat.spec_float :=
  SpecFloat.S754_finite false k 0.

(** [rint (x * 100) / 100] with the product and the quotient of
    [SpecFloat], on a positive float. *)
Definition spec_round2 (x : SpecFloat.spec_float) : fval :=
  match of_spec_float (SpecFloat.SFmul 53 1024 x (spec_nat 100)) with
  | Fin y =>
      match rint y with
      | Zpos z =>
          of_spec_float (SpecFloat.SFdiv 53 1024 (spec_nat z) (spec_nat 100))
      | _ => Fin 0
      end
  | other => other
  end.

(** The pairs [(k, n)] with [1 <= k <= n <= 40]. *)
Definition fractions : list (positive * positive) :=
  n ← seq 1 40; k ← seq 1 n; [(Pos.of_nat k, Pos.of_nat n)].

(** The numbers 1 to 3000. *)
Definition thousandths : list positive := Pos.of_nat <$> seq 1 3000.

(** ** The filter, as the specification words it *)

(** "The result holds exactly those columns of the input whose missing
    fraction is at most [t]." *)
Definition keeps_exactly_at_most (d : DataFrame) (t : Q) : Prop :=
  ∃ d', drop_high_missing_df d (Fin t) = Ok d' ∧
    ∀ c, c ∈ columns d →
      (c ∈ columns d' ↔ fleb (missing_fraction c.2) (Fin t) = true).

(** ** The aggregator, as the specification words it *)

(** A column of numbers and missing cells. *)
Definition numeric (c : column) : Prop := ∀ s, Str s ∉ c.

(** The non-null count of a column. *)
Definition count_nonnull (c : column) : nat :=
  length (filter (λ x, isna x = false) c).

(** ** The dispatcher, as the page words it *)

(** The option of the select box that stands for a view. *)
Definition title (p : page) : string :=
  match p with
  | CountryComparison => "📊 Country Comparison"
  | TimeSeriesAnalysis => "📈 Time Series Analysis"
  | WeatherCorrelations => "🌡️ Weather Correlations"
  | RegionalRankings => "🏆 Regional Rankings"
  end.

(** The views called in a run, in order, each with its argument. *)
Definition calls (t : list ui) : list (page * DataFrame) :=
  omap (λ e, match e with Call p d => Some (p, d) | _ => None end) t.

(** ** The loader, as the specification words it *)

(** The files found among [paths], each with its Country column, in path
    order. *)
Definition found_in (fs : string → file) (paths : list (string * string))
  : list DataFrame :=
  omap (λ cp, match fs cp.2 with
              | Present (Ok df) =>
                  Some (setitem_scalar df "Country" (Str cp.1))
              | _ => None
              end) paths.

(** The paths among [paths] at which no file is found. *)
Definition missing_in (fs : string → file) (paths : list (string * string))
  : list string :=
  omap (λ cp, match fs cp.2 with
              | Missing => Some cp.2
              | _ => None
              end) paths.

(** The sources that are found. *)
Definition sources_found (data_dir : string) (fs : string → file)
  : list DataFrame :=
  found_in fs (file_paths data_dir).

(** No [read_csv] raises on the given paths. *)
Definition readable (fs : string → file) (paths : list (string * string))
  : Prop :=
  ∀ cp e, cp ∈ paths → fs cp.2 ≠ Present (Raise e).

(** The source paths at which no file is found. *)
Definition sources_missing (data_dir : string) (fs : string → file)
  : list string :=
  missing_in fs (file_paths data_dir).

(** "Each missing source file is logged as a warning and left out of the
    combined dataset, and the load goes on with the remaining files; when
    no source file is found the loader returns nothing." *)
Definition skips_missing_sources (data_dir : string) (fs : string → file)
  : Prop :=
  ∃ out res, load_data data_dir fs = (out, res)
    ∧ (∀ cp, cp ∈ file_paths data_dir → fs cp.2 = Missing →
         Warning_not_found cp.2 ∈ out)
    ∧ (∀ df_all, res = Some df_all →
         nrows df_all = sum_list (nrows <$> sources_found data_dir fs))
    ∧ ((∀ cp, cp ∈ file_paths data_dir → fs cp.2 = Missing) → res = None).

(** ** The ranking, as the specification words it *)

(** Insertion into a list sorted from the largest down. *)
Fixpoint insert_desc (x : fval) (s : list fval) : list fval :=
  match s with
  | [] => [x]
  | y :: rest => if fleb y x then x :: y :: rest else y :: insert_desc x rest
  end.

Definition sort_desc (vals : list fval) : list fval :=
  foldr insert_desc [] vals.

(** The places, numbered from [k], that hold a value equal to [v]. *)
Fixpoint places (k : nat) (s : list fval) (v : fval) : list nat :=
  match s with
  | [] => []
  | x :: rest => (if feqb x v then [k] else []) ++ places (S k) rest v
  end.

(** The average rank, in words: sort the values that are not NaN from the
    largest down and number the places from 1; an entry gets the mean of
    the places that hold a value equal to it, and NaN when it is NaN. *)
Definition spec_average_rank_desc (vals : list fval) (v : fval) : fval :=
  if isnan v then NaN
  else
    let ps := places 1 (sort_desc (filter (λ x, isnan x = false) vals)) v in
    Fin (inject_Z (Z.of_nat (sum_list ps)) / inject_Z (Z.of_nat (length ps))).

(** What an entry [x] adds to twice the rank of [v]. *)
Definition weight (v x : fval) : nat :=
  ((if fgtb x v then 2 else 0) + (if feqb x v then 1 else 0))%nat.

(** No two entries of the series are equal. *)
Definition pairwise_distinct (vals : list fval) : Prop :=
  ∀ i j a b, i ≠ j → vals !! i = Some a → vals !! j = Some b →
             feqb a b = false.

(** "PotentialRank is the dense rank of each group's average, descending;
    StabilityRank is the dense rank of each group's stability, descending;
    OverallScore is their mean." *)
Definition ranks_are_dense (aggs : list Agg) : Prop :=
  ∀ i a r, aggs !! i = Some a → rankings aggs !! i = Some r →
    fsame (PotentialRank r)
          (spec_dense_rank_desc (Average <$> aggs) (Average a))
    ∧ fsame (StabilityRank r)
            (spec_dense_rank_desc (Stability <$> aggs) (Stability a))
    ∧ fsame (OverallScore r)
            (fdiv_pos (fadd (PotentialRank r) (StabilityRank r)) 2).

(** A frame with a Country column whose cells all name one of [names]. *)
Definition country_filled (names : list string) (d : DataFrame) : Prop :=
  "Country" ∈ labels d
  ∧ ∀ c, c ∈ columns d → c.1 = "Country" →
         Forall (λ x, x ∈ Str <$> names) c.2.

(** The sum of a column of floats. *)
Definition fsum (vals : list fval) : fval := foldr fadd (Fin 0) vals.

(** * Properties *)

(** ** Floats *)

Lemma Qltb_lt x y : Qltb x y = true ↔ (x < y)%Q.
Proof.
  unfold Qltb. rewrite negb_true_iff, <- not_true_iff_false, Qle_bool_iff.
  split; [apply Qnot_le_lt | apply Qlt_not_le].
Qed.

Lemma Qltb_ge x y : Qltb x y = false ↔ (y <= x)%Q.
Proof.
  unfold Qltb. rewrite negb_false_iff. apply Qle_bool_iff.
Qed.

Lemma Qeqb_eq x y : Qeq_bool x y = true ↔ (x == y)%Q.
Proof. apply Qeq_bool_iff. Qed.

(** Booleans on rationals as propositions, then linear arithmetic. *)
Ltac Qbool :=
  repeat match goal with
    | H : _ || _ = true |- _ => apply orb_true_iff in H as [H|H]
    | H : Qltb _ _ = true |- _ => apply Qltb_lt in H
    | H : Qltb _ _ = false |- _ => apply Qltb_ge in H
    | H : Qeq_bool _ _ = true |- _ => apply Qeq_bool_iff in H
    | H : Qeq_bool _ _ = false |- _ => apply Qeq_bool_neq in H
    end.

Section FloatFacts.

(** On non-NaN floats, [not (a > t)] is [a <= t]. *)
Lemma fgtb_false_fleb a t :
  isnan a = false → isnan t = false →
  fgtb a t = false ↔ fleb a t = true.
Proof.
  unfold fgtb, fleb.
  destruct a as [| |x|], t as [| |y|]; simpl; try done.
  intros _ _. rewrite Qltb_ge, orb_true_iff, Qltb_lt, Qeqb_eq.
  split; [apply Qle_lt_or_eq | intros [?%Qlt_le_weak | ->]; lra].
Qed.

Lemma feqb_not_fgtb a t : feqb a t = true → fgtb a t = false.
Proof.
  unfold fgtb.
  destruct a as [| |x|], t as [| |y|]; simpl; try done.
  rewrite Qeqb_eq, Qltb_ge. intros ->. lra.
Qed.

Lemma fleb_Fin x y : fleb (Fin x) (Fin y) = true ↔ (x <= y)%Q.
Proof.
  unfold fleb. simpl. rewrite orb_true_iff, Qltb_lt, Qeqb_eq.
  split; [intros [?| ->]; lra | apply Qle_lt_or_eq].
Qed.

Lemma fleb_not_nan a b : fleb a b = true → isnan a = false ∧ isnan b = false.
Proof. by destruct a, b. Qed.

Lemma fltb_fleb a b : fltb a b = true → fleb a b = true.
Proof. unfold fleb. by intros ->. Qed.

(** [rint] is monotone. *)
Lemma rint_mono x y : (x <= y)%Q → (rint x ≤ rint y)%Z.
Proof.
  intros Hxy. unfold rint.
  pose proof (Qfloor_le x) as Hx1. pose proof (Qlt_floor x) as Hx2.
  pose proof (Qfloor_le y) as Hy1. pose proof (Qlt_floor y) as Hy2.
  pose proof (Qfloor_resp_le x y Hxy) as Hf.
  rewrite inject_Z_plus in Hx2, Hy2. change (inject_Z 1) with 1%Q in *.
  destruct (Z.eq_dec (Qfloor x) (Qfloor y)) as [He|Hne].
  - rewrite <- He in *. clear He Hy1 Hy2 Hf.
    set (f := Qfloor x) in *.
    destruct (Qltb (x - inject_Z f) (1 # 2)) eqn:E1,
             (Qltb (1 # 2) (x - inject_Z f)) eqn:E2,
             (Qltb (y - inject_Z f) (1 # 2)) eqn:E3,
             (Qltb (1 # 2) (y - inject_Z f)) eqn:E4,
             (Z.even f);
      Qbool; first [lia | exfalso; lra].
  - assert (Qfloor x + 1 ≤ Qfloor y)%Z by lia.
    repeat match goal with |- context [if ?b then _ else _] => destruct b end;
      lia.
Qed.

End FloatFacts.

(** ** Rounding to binary64 *)

Lemma rint_inject_Z z : rint (inject_Z z) = z.
Proof.
  unfold rint. rewrite Qfloor_Z.
  destruct (Qltb (inject_Z z - inject_Z z) (1 # 2)) eqn:E; [done|].
  Qbool. exfalso. lra.
Qed.

Section Binary64.

Local Open Scope Q_scope.

Lemma pow2_pos e : 0 < 2 ^ e.
Proof. by apply Qpower_0_lt. Qed.

Lemma pow2_plus a b : 2 ^ (a + b) == 2 ^ a * 2 ^ b.
Proof. by apply Qpower_plus. Qed.

Lemma pow2_le a b : (a <= b)%Z → 2 ^ a <= 2 ^ b.
Proof. intros. apply Qpower_le_compat_l; [done|]. lra. Qed.

Lemma pow2_succ a : 2 ^ (a + 1) == 2 * 2 ^ a.
Proof. rewrite pow2_plus. change (2 ^ 1) with 2. lra. Qed.

Lemma pow2_inject (k : Z) : (0 <= k)%Z → inject_Z (2 ^ k) == 2 ^ k.
Proof. intros. by rewrite Zpower_Qpower. Qed.


Lemma Qmul_lt_cancel (u v w : Q) : 0 < w → u * w < v * w → u < v.
Proof. intros Hw H. by apply Qmult_lt_r in H. Qed.

Lemma Qmul_le_cancel (u v w : Q) : 0 < w → u * w <= v * w → u <= v.
Proof. intros Hw H. by apply Qmult_le_r in H. Qed.

(** The binade of a positive rational. *)
Lemma binade_spec x : 0 < x → 2 ^ binade x <= x ∧ x < 2 ^ (binade x + 1).
Proof.
  intros Hx. unfold binade.
  destruct x as [a b]. cbn [Qnum Qden].
  assert (0 < a)%Z as Ha by (unfold Qlt in Hx; simpl in Hx; lia).
  set (la := Z.log2 a). set (lb := Z.log2 (Z.pos b)).
  destruct (Z.log2_spec a Ha) as [Ha1 Ha2].
  destruct (Z.log2_spec (Z.pos b) eq_refl) as [Hb1 Hb2].
  fold la in Ha1, Ha2. fold lb in Hb1, Hb2.
  assert (0 <= la)%Z as Hla by apply Z.log2_nonneg.
  assert (0 <= lb)%Z as Hlb by apply Z.log2_nonneg.
  set (A := inject_Z a). set (B := inject_Z (Z.pos b)).
  set (P := 2 ^ la). set (R := 2 ^ lb).
  assert (P <= A) as HPA.
  { unfold P, A. rewrite <- pow2_inject by done. by rewrite <- Zle_Qle. }
  assert (A < 2 * P) as HAP.
  { unfold P, A. rewrite <- pow2_succ, <- pow2_inject by lia.
    by rewrite <- Zlt_Qlt. }
  assert (R <= B) as HRB.
  { unfold R, B. rewrite <- pow2_inject by done. by rewrite <- Zle_Qle. }
  assert (B < 2 * R) as HBR.
  { unfold R, B. rewrite <- pow2_succ, <- pow2_inject by lia.
    by rewrite <- Zlt_Qlt. }
  assert (0 < P) as HP by apply pow2_pos.
  assert (0 < R) as HR by apply pow2_pos.
  assert ((a # b) * B == A) as HxB.
  { unfold A, B. rewrite (Qmake_Qdiv a b). field. done. }
  assert (2 ^ (la - lb) * R == P) as HdR.
  { unfold P, R. rewrite <- pow2_plus. by replace (la - lb + lb)%Z with la by lia. }
  assert (2 ^ (la - lb - 1) * (2 * R) == P) as HdR'.
  { unfold P, R. change 2 with (2 ^ 1) at 2. rewrite <- !pow2_plus.
    by replace (la - lb - 1 + (1 + lb))%Z with la by lia. }
  assert (2 ^ (la - lb + 1) * R == 2 * P) as HdR''.
  { rewrite pow2_succ, <- HdR. ring. }
  set (x := a # b) in *.
  assert (0 < B) by lra. assert (0 < A) by lra.
  destruct (Qle_bool (2 ^ (la - lb)) x) eqn:E.
  - apply Qle_bool_iff in E. split; [done|].
    apply (Qmul_lt_cancel _ _ (B * R)); [nra|].
    assert (x * (B * R) == A * R) as -> by (rewrite <- HxB; ring).
    assert (2 ^ (la - lb + 1) * (B * R) == 2 * P * B) as ->
      by (rewrite <- HdR''; ring).
    nra.
  - apply not_true_iff_false in E. rewrite Qle_bool_iff in E.
    apply Qnot_le_lt in E.
    replace (la - lb - 1 + 1)%Z with (la - lb)%Z by lia.
    split; [|done].
    apply (Qmul_le_cancel _ _ (B * (2 * R))); [nra|].
    assert (x * (B * (2 * R)) == A * (2 * R)) as -> by (rewrite <- HxB; ring).
    assert (2 ^ (la - lb - 1) * (B * (2 * R)) == P * B) as ->
      by (rewrite <- HdR'; ring).
    nra.
Qed.



Lemma ulp_exp_spec x :
  0 < x →
  x < 2 ^ (ulp_exp x + 53) ∧
  ((-1074 < ulp_exp x)%Z → 2 ^ (ulp_exp x + 52) <= x).
Proof.
  intros Hx. destruct (binade_spec x Hx) as [H1 H2]. unfold ulp_exp. split.
  - eapply Qlt_le_trans; [exact H2|]. apply pow2_le. lia.
  - intros He. by replace (Z.max (binade x - 52) (-1074) + 52)%Z
      with (binade x) by lia.
Qed.

Lemma ulp_exp_min x : (-1074 <= ulp_exp x)%Z.
Proof. unfold ulp_exp. lia. Qed.

Lemma ulp_exp_mono x y : 0 < x → x <= y → (ulp_exp x <= ulp_exp y)%Z.
Proof.
  intros Hx Hxy.
  destruct (Z.le_gt_cases (ulp_exp x) (ulp_exp y)) as [|Hlt]; [done|].
  exfalso.
  destruct (ulp_exp_spec x Hx) as [_ Hlo].
  destruct (ulp_exp_spec y) as [Hhi _]; [lra|].
  pose proof (ulp_exp_min y).
  assert (2 ^ (ulp_exp y + 53) <= 2 ^ (ulp_exp x + 52)) by (apply pow2_le; lia).
  specialize (Hlo ltac:(lia)). lra.
Qed.


Lemma rint_le_Z x (z : Z) : x <= inject_Z z → (rint x <= z)%Z.
Proof. intros H%rint_mono. by rewrite rint_inject_Z in H. Qed.

Lemma rint_ge_Z x (z : Z) : inject_Z z <= x → (z <= rint x)%Z.
Proof. intros H%rint_mono. by rewrite rint_inject_Z in H. Qed.

Lemma nearest_le x (k : Z) :
  (0 <= k)%Z → x <= 2 ^ (ulp_exp x + k) → nearest x <= 2 ^ (ulp_exp x + k).
Proof.
  intros Hk Hx. unfold nearest. cbv zeta. rewrite pow2_plus, (Qmult_comm (2 ^ _) (2 ^ k)).
  apply Qmult_le_compat_r; [|apply Qlt_le_weak, pow2_pos].
  rewrite <- (pow2_inject k) by done. rewrite <- Zle_Qle.
  apply rint_le_Z. rewrite (pow2_inject k) by done.
  apply Qle_shift_div_r; [apply pow2_pos|].
  by rewrite Qmult_comm, <- pow2_plus.
Qed.

Lemma nearest_ge x (k : Z) :
  (0 <= k)%Z → 2 ^ (ulp_exp x + k) <= x → 2 ^ (ulp_exp x + k) <= nearest x.
Proof.
  intros Hk Hx. unfold nearest. cbv zeta. rewrite pow2_plus, (Qmult_comm (2 ^ _) (2 ^ k)).
  apply Qmult_le_compat_r; [|apply Qlt_le_weak, pow2_pos].
  rewrite <- (pow2_inject k) by done. rewrite <- Zle_Qle.
  apply rint_ge_Z. rewrite (pow2_inject k) by done.
  apply Qle_shift_div_l; [apply pow2_pos|].
  by rewrite Qmult_comm, <- pow2_plus.
Qed.

Lemma nearest_mono x y : 0 < x → x <= y → nearest x <= nearest y.
Proof.
  intros Hx Hxy.
  pose proof (ulp_exp_mono x y Hx Hxy) as He.
  destruct (Z.eq_dec (ulp_exp x) (ulp_exp y)) as [Heq|Hne].
  - unfold nearest. cbv zeta. rewrite Heq.
    apply Qmult_le_compat_r; [|apply Qlt_le_weak, pow2_pos].
    rewrite <- Zle_Qle. apply rint_mono.
    apply Qmult_le_compat_r; [done|].
    apply Qlt_le_weak, Qinv_lt_0_compat, pow2_pos.
  - destruct (ulp_exp_spec x Hx) as [Hhi _].
    destruct (ulp_exp_spec y) as [_ Hlo]; [lra|].
    pose proof (ulp_exp_min x).
    specialize (Hlo ltac:(lia)).
    apply Qle_trans with (2 ^ (ulp_exp x + 53)).
    { apply nearest_le; [lia | by apply Qlt_le_weak]. }
    apply Qle_trans with (2 ^ (ulp_exp y + 52)).
    { apply pow2_le. lia. }
    by apply nearest_ge.
Qed.

Lemma nearest_nonneg x : 0 <= x → 0 <= nearest x.
Proof.
  intros Hx. unfold nearest. cbv zeta.
  apply Qmult_le_0_compat; [|apply Qlt_le_weak, pow2_pos].
  change 0 with (inject_Z 0). rewrite <- Zle_Qle.
  apply rint_ge_Z. change (inject_Z 0) with 0.
  apply Qle_shift_div_l; [apply pow2_pos|]. lra.
Qed.


Lemma round_pos_mono x y :
  0 < x → x <= y → fleb (round_pos x) (round_pos y) = true.
Proof.
  intros Hx Hxy. pose proof (nearest_mono x y Hx Hxy) as Hn.
  unfold round_pos. cbv zeta.
  destruct (Qle_bool (2 ^ 1024) (nearest y)) eqn:Ey.
  { by destruct (Qle_bool (2 ^ 1024) (nearest x)). }
  destruct (Qle_bool (2 ^ 1024) (nearest x)) eqn:Ex.
  { apply Qle_bool_iff in Ex.
    apply not_true_iff_false in Ey. destruct Ey. apply Qle_bool_iff.
    by apply Qle_trans with (nearest x). }
  apply fleb_Fin. by rewrite !Qred_correct.
Qed.

Lemma round_pos_nonneg x : 0 <= x → fleb (Fin 0) (round_pos x) = true.
Proof.
  intros Hx. unfold round_pos. cbv zeta.
  destruct (Qle_bool (2 ^ 1024) (nearest x)); [done|].
  apply fleb_Fin. rewrite Qred_correct. by apply nearest_nonneg.
Qed.

Lemma round_pos_not_nan x : isnan (round_pos x) = false.
Proof. unfold round_pos. cbv zeta. by destruct (Qle_bool _ _). Qed.

Lemma fl64_not_nan x : isnan (fl64 x) = false.
Proof.
  unfold fl64. destruct (Qnum x); [done| |].
  - apply round_pos_not_nan.
  - pose proof (round_pos_not_nan (- x)). by destruct (round_pos (- x)).
Qed.

Lemma fleb_fneg a b : fleb a b = true → fleb (fneg b) (fneg a) = true.
Proof.
  destruct a as [| |x|], b as [| |y|]; try done.
  cbn [fneg]. rewrite !fleb_Fin. lra.
Qed.

Lemma fleb_trans a b c : fleb a b = true → fleb b c = true → fleb a c = true.
Proof.
  destruct a as [| |x|], b as [| |y|], c as [| |z|]; try done.
  rewrite !fleb_Fin. lra.
Qed.

Lemma Qnum_pos x p : Qnum x = Z.pos p → 0 < x.
Proof. destruct x as [a b]. simpl. intros ->. done. Qed.
Lemma Qnum_neg x p : Qnum x = Z.neg p → x < 0.
Proof. destruct x as [a b]. simpl. intros ->. done. Qed.
Lemma Qnum_zero x : Qnum x = 0%Z → x == 0.
Proof. destruct x as [a b]. simpl. intros ->. done. Qed.

(** Rounding to binary64 keeps the order. *)
Lemma fl64_mono x y : x <= y → fleb (fl64 x) (fl64 y) = true.
Proof.
  intros Hxy. unfold fl64.
  destruct (Qnum x) as [|p|p] eqn:Ex, (Qnum y) as [|q|q] eqn:Ey;
    try apply Qnum_zero in Ex; try apply Qnum_pos in Ex;
    try apply Qnum_neg in Ex; try apply Qnum_zero in Ey;
    try apply Qnum_pos in Ey; try apply Qnum_neg in Ey;
    try (exfalso; lra).
  - done.
  - apply round_pos_nonneg. lra.
  - apply round_pos_mono; lra.
  - change (Fin 0) with (fneg (Fin 0)). apply fleb_fneg, round_pos_nonneg. lra.
  - apply fleb_trans with (Fin 0).
    + change (Fin 0) with (fneg (Fin 0)). apply fleb_fneg, round_pos_nonneg. lra.
    + apply round_pos_nonneg. lra.
  - apply fleb_fneg, round_pos_mono; lra.
Qed.

(** On every quotient of counts up to 40, [fl64] is the division of
    [SpecFloat]. *)
Example fl64_quotients :
  (λ kn, fl64 (Zpos kn.1 # kn.2)) <$> fractions =
  (λ kn, of_spec_float
           (SpecFloat.SFdiv 53 1024 (spec_nat kn.1) (spec_nat kn.2)))
    <$> fractions.
Proof. vm_compute. reflexivity. Qed.

(** On every float k/1000 up to 3, [round2] is [rint (x * 100) / 100] in
    the arithmetic of [SpecFloat]. *)
Example round2_thousandths :
  (λ k, round2 (fl64 (Zpos k # 1000))) <$> thousandths =
  (λ k, spec_round2 (SpecFloat.SFdiv 53 1024 (spec_nat k) (spec_nat 1000)))
    <$> thousandths.
Proof. vm_compute. reflexivity. Qed.

(** A rounded fraction is a fraction. *)
Lemma fl64_unit x :
  0 <= x <= 1 → ∃ q, fl64 x = Fin q ∧ 0 <= q <= 1.
Proof.
  intros [H0 H1].
  pose proof (fl64_mono 0 x H0) as Hlo.
  pose proof (fl64_mono x 1 H1) as Hhi.
  change (fl64 0) with (Fin 0) in Hlo.
  replace (fl64 1) with (Fin 1) in Hhi by (by vm_compute).
  destruct (fl64 x) as [| |q|]; try done.
  exists q. by rewrite !fleb_Fin in *.
Qed.

(** Rounding to two decimals keeps the order. *)
Lemma round2_mono a b : fleb a b = true → fleb (round2 a) (round2 b) = true.
Proof.
  destruct a as [| |x|], b as [| |y|]; try done.
  - intros _. cbn [round2].
    pose proof (fl64_not_nan (y * 100)) as H1.
    destruct (fl64 (y * 100)) as [| |y'|]; try done.
    pose proof (fl64_not_nan (inject_Z (rint y') / 100)) as H2.
    by destruct (fl64 (inject_Z (rint y') / 100)).
  - rewrite fleb_Fin. intros Hxy. cbn [round2].
    assert (fleb (fl64 (x * 100)) (fl64 (y * 100)) = true) as H
      by (apply fl64_mono; lra).
    destruct (fl64 (x * 100)) as [| |x'|], (fl64 (y * 100)) as [| |y'|];
      try done.
    + pose proof (fl64_not_nan (inject_Z (rint y') / 100)) as H2.
      by destruct (fl64 (inject_Z (rint y') / 100)).
    + apply fleb_Fin in H. apply fl64_mono.
      apply Qmult_le_compat_r; [|done].
      rewrite <- Zle_Qle. by apply rint_mono.
    + pose proof (fl64_not_nan (inject_Z (rint x') / 100)) as H2.
      by destruct (fl64 (inject_Z (rint x') / 100)).
  - intros _. cbn [round2].
    pose proof (fl64_not_nan (x * 100)) as H1.
    destruct (fl64 (x * 100)) as [| |x'|]; try done.
    pose proof (fl64_not_nan (inject_Z (rint x') / 100)) as H2.
    by destruct (fl64 (inject_Z (rint x') / 100)).
Qed.

Lemma isnan_round2 a : isnan (round2 a) = isnan a.
Proof.
  destruct a as [| |x|]; try done. cbn [round2].
  pose proof (fl64_not_nan (x * 100)) as H1.
  destruct (fl64 (x * 100)) as [| |x'|]; try done.
  apply fl64_not_nan.
Qed.

End Binary64.

(** ** The order on floats *)

Section FloatOrder.

Implicit Types (a b c : fval).

(** Case analysis on floats, then linear arithmetic on the rationals. *)
Ltac fval_order :=
  unfold fgeb, fgtb, fleb in *;
  repeat match goal with
    | x : fval |- _ => destruct x as [| |?|]
    end;
  simpl in *; try done;
  Qbool;
  rewrite ?orb_true_iff, ?Qltb_lt, ?Qltb_ge, ?Qeqb_eq,
          <- ?not_true_iff_false, ?Qeqb_eq;
  try lra; try (left; lra); try (right; lra); auto.

Lemma fleb_refl a : isnan a = false → fleb a a = true.
Proof. intros. fval_order. Qed.

Lemma fltb_fleb_trans a b c :
  fltb a b = true → fleb b c = true → fltb a c = true.
Proof. intros. fval_order. Qed.

Lemma fleb_fltb_trans a b c :
  fleb a b = true → fltb b c = true → fltb a c = true.
Proof. intros. fval_order. Qed.

Lemma fltb_irrefl a : fltb a a = false.
Proof. fval_order. Qed.

Lemma fleb_false_fltb a b :
  isnan a = false → isnan b = false → fleb a b = false → fltb b a = true.
Proof.
  intros Ha Hb. unfold fleb.
  destruct a as [| |x|], b as [| |y|]; simpl in *; try done.
  rewrite orb_false_iff. intros [H1 H2]. Qbool. apply Qltb_lt. lra.
Qed.

Lemma fleb_antisym a b : fleb a b = true → fleb b a = true → feqb a b = true.
Proof.
  unfold fleb.
  destruct a as [| |x|], b as [| |y|]; simpl; try done.
  intros H1 H2. Qbool; apply Qeqb_eq; lra.
Qed.

Lemma fltb_not_fleb a b : fltb a b = true → fleb b a = true → False.
Proof. intros. fval_order. Qed.

Lemma fltb_not_nan a b : fltb a b = true → isnan a = false ∧ isnan b = false.
Proof. by destruct a, b. Qed.

End FloatOrder.

(** ** Lists *)

Section ListFacts.

Context {A : Type} (P Q : A → Prop) `{!∀ x, Decision (P x), !∀ x, Decision (Q x)}.

Lemma filter_ext_in (l : list A) :
  (∀ x, x ∈ l → P x ↔ Q x) → filter P l = filter Q l.
Proof.
  induction l as [|a l IH]; intros Hl; [done|].
  rewrite !filter_cons.
  rewrite IH by (intros x Hx; apply Hl; by right).
  destruct (decide (P a)) as [HP|HP], (decide (Q a)) as [HQ|HQ]; try done.
  - destruct HQ. apply Hl; [by left | done].
  - destruct HP. apply Hl; [by left | done].
Qed.

Lemma filter_none (l : list A) :
  (∀ x, x ∈ l → ¬ P x) → filter P l = [].
Proof.
  induction l as [|a l IH]; intros Hl; [done|].
  rewrite filter_cons_False by (apply Hl; by left).
  apply IH. intros x Hx. apply Hl. by right.
Qed.

Lemma filter_all (l : list A) :
  (∀ x, x ∈ l → P x) → filter P l = l.
Proof.
  induction l as [|a l IH]; intros Hl; [done|].
  rewrite filter_cons_True by (apply Hl; by left).
  f_equal. apply IH. intros x Hx. apply Hl. by right.
Qed.

End ListFacts.

(** ** The missing-data filter *)

Section Filter.

Implicit Types (d : DataFrame) (t : fval) (c : string * column).

(** A column is dropped when its label is the label of a column whose
    missing fraction exceeds the threshold. *)
Local Abbreviation exceeds t c := (fgtb (missing_fraction c.2) t = true).

Lemma elem_of_cols_to_drop d t (l : string) :
  l ∈ index_where_gt (isna_mean d) t ↔
  ∃ c, c ∈ columns d ∧ c.1 = l ∧ exceeds t c.
Proof.
  unfold index_where_gt, isna_mean.
  rewrite list_elem_of_fmap. split.
  - intros [e [-> [He [c [-> Hc]]%list_elem_of_fmap]%list_elem_of_filter]].
    by exists c.
  - intros (c & Hc & <- & He).
    exists (c.1, missing_fraction c.2). split; [done|].
    apply list_elem_of_filter. split; [done|].
    apply list_elem_of_fmap. by exists c.
Qed.

(** [drop] never raises here: the labels it is given come from the frame. *)
Lemma drop_high_missing_df_eq d t :
  drop_high_missing_df d t =
  Ok (mkDataFrame (nrows d)
        (filter (λ c, c.1 ∉ index_where_gt (isna_mean d) t) (columns d))).
Proof.
  unfold drop_high_missing_df, drop.
  rewrite (filter_none (λ l, l ∉ labels d)); [done|].
  intros l (c & Hc & <- & _)%elem_of_cols_to_drop Hl.
  apply Hl. unfold labels. by apply list_elem_of_fmap_2.
Qed.

(** With distinct labels, the dropped columns are those that exceed. *)
Lemma drop_high_missing_df_nodup d t :
  NoDup (labels d) →
  drop_high_missing_df d t =
  Ok (mkDataFrame (nrows d) (filter (λ c, ¬ exceeds t c) (columns d))).
Proof.
  intros Hnd. rewrite drop_high_missing_df_eq. do 2 f_equal.
  apply filter_ext_in. intros c Hc.
  rewrite elem_of_cols_to_drop. split.
  - intros Hn He. apply Hn. by exists c.
  - intros Hn (c' & Hc' & Hl & He). apply Hn.
    assert (c' = c) as <-; [|done].
    destruct c as [l x], c' as [l' x']. simpl in Hl. subst l'.
    f_equal. revert Hc Hc' Hnd. unfold labels.
    generalize (columns d). intros cols.
    induction cols as [|[k y] cols IH]; intros H1 H2 Hnd.
    { by apply elem_of_nil in H1. }
    simpl in Hnd. apply NoDup_cons in Hnd as [Hk Hnd].
    apply elem_of_cons in H1 as [H1|H1], H2 as [H2|H2].
    + congruence.
    + destruct Hk. injection H1 as <- _.
      by apply (list_elem_of_fmap_2 fst) in H2.
    + destruct Hk. injection H2 as <- _.
      by apply (list_elem_of_fmap_2 fst) in H1.
    + by apply IH.
Qed.

(** The missing fraction is NaN exactly when the column has no cell. *)
Lemma missing_fraction_nan (x : column) :
  isnan (missing_fraction x) = true ↔ x = [].
Proof.
  unfold missing_fraction. destruct x as [|v x]; [done|].
  cbn [length bool_mean]. by rewrite fl64_not_nan.
Qed.

(** A fraction is not above a finite threshold when it is at most the
    threshold, or undefined. *)
Lemma not_exceeds_iff (q : Q) c :
  ¬ exceeds (Fin q) c ↔
  c.2 = [] ∨ fleb (missing_fraction c.2) (Fin q) = true.
Proof.
  rewrite not_true_iff_false.
  destruct (isnan (missing_fraction c.2)) eqn:Hn.
  - pose proof (proj1 (missing_fraction_nan _) Hn) as ->.
    split; [by left | done].
  - rewrite (fgtb_false_fleb _ (Fin q) Hn eq_refl). split; [by right|].
    intros [He|?]; [|done].
    apply missing_fraction_nan in He. congruence.
Qed.

End Filter.

Section FilterProperties.

Implicit Types (d : DataFrame) (t : fval) (c : string * column).

(** A Python literal is the binary64 nearest to it.  The run of
    [test_module.py]: at threshold 0.3 only temperature, with two cells in
    five missing, goes. *)
Example test_module_main :
  labels <$> drop_high_missing_df Samples.sample_data (fl64 (3 # 10)) =
  Ok ["solar_radiation"; "efficiency"; "voltage"].
Proof. vm_compute. reflexivity. Qed.

(** The scenario of the specification: at threshold 0.15 column A, with
    one cell in five missing, goes and B stays; at 0.2 both stay. *)
Example scenario_015 :
  labels <$> drop_high_missing_df Samples.scenario (fl64 (15 # 100)) = Ok ["B"].
Proof. vm_compute. reflexivity. Qed.

Example scenario_020 :
  labels <$> drop_high_missing_df Samples.scenario (fl64 (20 # 100)) =
  Ok ["A"; "B"].
Proof. vm_compute. reflexivity. Qed.

(** The quotient is the binary64 one: a column with one cell in three
    missing stays at the binary64 third, which is below one third. *)
Example third_stays :
  fl64 (1 # 3) = Fin (6004799503160661 # 18014398509481984)
  ∧ labels <$> drop_high_missing_df Samples.thirds (fl64 (1 # 3)) =
    Ok ["A"; "B"].
Proof. split; vm_compute; reflexivity. Qed.

(** C1, as amended.  The missing fraction of a column is the float that
    pandas computes: the binary64 quotient of the number of missing cells
    by the number of rows, NaN without rows.  For every table whose column
    labels are pairwise distinct and every finite threshold [t] (so every
    [t] in [0,1]), [drop_high_missing] returns, in their input order and
    with the row count unchanged, exactly those columns whose missing
    fraction does not strictly exceed [t]: the columns whose fraction is at
    most [t], together with the columns that have no cell at all, whose
    fraction is NaN.  A column whose fraction strictly exceeds [t] is
    removed and a column whose fraction equals [t] is retained. *)
Theorem drop_high_missing_keeps_not_exceeding d (t : Q) :
  NoDup (labels d) →
  ∃ d', drop_high_missing_df d (Fin t) = Ok d'
    ∧ nrows d' = nrows d
    ∧ columns d' =
        filter (λ c, fgtb (missing_fraction c.2) (Fin t) ≠ true) (columns d)
    ∧ ∀ c, c ∈ columns d →
        (c ∈ columns d' ↔
           c.2 = [] ∨ fleb (missing_fraction c.2) (Fin t) = true)
        ∧ (fgtb (missing_fraction c.2) (Fin t) = true → c ∉ columns d')
        ∧ (feqb (missing_fraction c.2) (Fin t) = true → c ∈ columns d').
Proof.
  intros Hnd. eexists. split; [by apply drop_high_missing_df_nodup|].
  cbn [nrows columns]. split; [done|]. split; [done|].
  intros c Hc. rewrite list_elem_of_filter. cbn beta. split; [|split].
  - rewrite not_exceeds_iff. tauto.
  - tauto.
  - intros He%feqb_not_fgtb. split; [congruence | done].
Qed.

Lemma drop_high_missing_keeps_not_exceeding_witness :
  (∃ d', drop_high_missing_df Samples.scenario
           (Fin (Samples.literal (15 # 100))) = Ok d'
       ∧ columns d' = [("B", [Num 1; Num 2; Num 3; Num 4; Num 5])])
  ∧ (∃ d', drop_high_missing_df Samples.thirds
             (Fin (Samples.literal (1 # 3))) = Ok d'
         ∧ columns d' = columns Samples.thirds).
Proof.
  split.
  - destruct (drop_high_missing_keeps_not_exceeding Samples.scenario
                (Samples.literal (15 # 100)))
      as (d' & Hd & _ & Hcols & _).
    + apply (bool_decide_unpack _). vm_compute. exact I.
    + exists d'. split; [exact Hd|]. rewrite Hcols. vm_compute. reflexivity.
  - destruct (drop_high_missing_keeps_not_exceeding Samples.thirds
                (Samples.literal (1 # 3)))
      as (d' & Hd & _ & Hcols & _).
    + apply (bool_decide_unpack _). vm_compute. exact I.
    + exists d'. split; [exact Hd|]. rewrite Hcols. vm_compute. reflexivity.
Defined.

(** C1 as stated fails.  With two columns labelled A, one all missing and
    one complete, the drop is by label and removes both, the complete one
    included; and in a table without rows a column is kept although its
    fraction, NaN, is not at most the threshold. *)
Lemma keeps_exactly_at_most_fails :
  ¬ keeps_exactly_at_most Samples.twins (1 # 2)
  ∧ ¬ keeps_exactly_at_most Samples.no_rows 0.
Proof.
  split; intros (d' & Hd & Hiff).
  - vm_compute in Hd. injection Hd as <-.
    destruct (Hiff ("A", [Num 1])) as [_ Hin]; [right; left|].
    specialize (Hin eq_refl). simpl in Hin. by apply elem_of_nil in Hin.
  - vm_compute in Hd. injection Hd as <-.
    destruct (Hiff ("A", [])) as [Hin _]; [left|].
    discriminate Hin. left.
Qed.

(** C10.  A table with zero rows comes back whole at every threshold, NaN
    and the infinities included: the fraction of each column is NaN, and no
    comparison with NaN holds. *)
Theorem drop_high_missing_no_rows d t :
  wf d → nrows d = 0%nat → drop_high_missing_df d t = Ok d.
Proof.
  intros Hwf H0. rewrite drop_high_missing_df_eq.
  rewrite filter_all; [by destruct d|].
  intros c Hc (c' & Hc' & _ & He)%elem_of_cols_to_drop.
  unfold wf in Hwf. rewrite Forall_forall in Hwf.
  specialize (Hwf c' Hc'). rewrite H0 in Hwf.
  destruct c' as [l [|x xs]]; [by destruct t | discriminate Hwf].
Qed.

Lemma drop_high_missing_no_rows_witness :
  drop_high_missing_df Samples.no_rows (Fin 0) = Ok Samples.no_rows.
Proof.
  apply drop_high_missing_no_rows; [|reflexivity].
  constructor; [reflexivity | constructor].
Defined.

(** No remaining column exceeds the threshold. *)
Lemma drop_high_missing_df_clean d t d' :
  drop_high_missing_df d t = Ok d' →
  index_where_gt (isna_mean d') t = [].
Proof.
  rewrite drop_high_missing_df_eq. intros [= <-].
  destruct (index_where_gt _ t) as [|l ls] eqn:E at 1; [done|].
  assert (l ∈ index_where_gt
            (isna_mean
               (mkDataFrame (nrows d)
                  (filter (λ c, c.1 ∉ index_where_gt (isna_mean d) t)
                     (columns d)))) t) as Hl
    by (rewrite E; left).
  apply elem_of_cols_to_drop in Hl as (c & Hc & _ & He).
  simpl in Hc. apply list_elem_of_filter in Hc as [Hn Hc].
  destruct Hn. apply elem_of_cols_to_drop. by exists c.
Qed.

(** C5.  The filter always returns, and filtering its result again at the
    same threshold returns that result. *)
Theorem drop_high_missing_idempotent d t :
  ∃ d1, drop_high_missing_df d t = Ok d1
      ∧ drop_high_missing_df d1 t = Ok d1.
Proof.
  pose proof (drop_high_missing_df_eq d t) as H1.
  destruct (drop_high_missing_df d t) as [d1|] eqn:E; [|done].
  exists d1. split; [done|].
  rewrite drop_high_missing_df_eq, (drop_high_missing_df_clean d t d1 E).
  rewrite filter_all; [by destruct d1|]. intros c _. apply not_elem_of_nil.
Qed.

End FilterProperties.

(** ** The cleaner object *)

Section Cleaner.

Implicit Types (h : gmap loc obj) (d : DataFrame) (t : fval).

(** The result of the method body is the input minus some columns. *)
Lemma drop_high_missing_df_sub d t d' :
  drop_high_missing_df d t = Ok d' →
  nrows d' = nrows d ∧ columns d' `sublist_of` columns d.
Proof.
  rewrite drop_high_missing_df_eq. intros [= <-]. simpl.
  split; [done | apply sublist_filter].
Qed.

Lemma alloc_fresh h (o : obj) :
  ∃ r, alloc o h = (Ok r, <[r := o]> h) ∧ h !! r = None.
Proof.
  exists (fresh (dom h)). split; [done|].
  apply not_elem_of_dom, is_fresh.
Qed.

(** C8.  A call on a cleaner whose attribute is a table returns a new
    object: its location is not in use before the call, so it aliases
    neither the stored table nor anything else, and the heap after the call
    is the heap before it plus that object.  The cleaner still points to
    the same table, the table has the same contents, and so has every other
    object.  The result has the row count of the input, and its columns are
    columns of the input, labels and cells unchanged, in the same order. *)
Theorem drop_high_missing_no_side_effect h (self dfl : loc) d t :
  h !! self = Some (OCleaner dfl) →
  h !! dfl = Some (ODataFrame d) →
  ∃ (r : loc) (cleaned : DataFrame) (h' : gmap loc obj),
    drop_high_missing self t h = (Ok r, h')
    ∧ h' = <[r := ODataFrame cleaned]> h
    ∧ h !! r = None
    ∧ h' !! self = Some (OCleaner dfl)
    ∧ h' !! dfl = Some (ODataFrame d)
    ∧ (∀ l o, h !! l = Some o → h' !! l = Some o)
    ∧ drop_high_missing_df d t = Ok cleaned
    ∧ nrows cleaned = nrows d
    ∧ columns cleaned `sublist_of` columns d
    ∧ (∀ c, c ∈ columns cleaned → c ∈ columns d).
Proof.
  intros Hself Hdf.
  pose proof (drop_high_missing_df_eq d t) as Hc.
  set (cleaned := mkDataFrame _ _) in Hc.
  destruct (alloc_fresh h (ODataFrame cleaned)) as (r & Hr & Hnew).
  destruct (drop_high_missing_df_sub d t cleaned Hc) as [Hn Hsub].
  assert (∀ l o, h !! l = Some o →
                 <[r := ODataFrame cleaned]> h !! l = Some o) as Hkeep.
  { intros l o Hl. rewrite lookup_insert_ne; [done|]. congruence. }
  exists r, cleaned, (<[r := ODataFrame cleaned]> h).
  split.
  { unfold drop_high_missing, bind, attr_df, frame_at, lift.
    by rewrite Hself, Hdf, Hc. }
  repeat split; auto.
  intros c Hin. by eapply elem_of_sublist.
Qed.

Lemma drop_high_missing_no_side_effect_witness :
  ∃ r cleaned h',
    drop_high_missing 1%nat (Fin (15 # 100)) Samples.heap0 = (Ok r, h')
    ∧ h' = <[r := ODataFrame cleaned]> Samples.heap0
    ∧ h' !! 0%nat = Some (ODataFrame Samples.scenario).
Proof.
  destruct (drop_high_missing_no_side_effect Samples.heap0 1%nat 0%nat
              Samples.scenario (Fin (15 # 100)))
    as (r & cleaned & h' & Hrun & Hh & _ & _ & Hdf & _);
    [reflexivity | reflexivity |].
  exists r, cleaned, h'. repeat split; assumption.
Defined.

(** One call, step by step. *)
Lemma drop_high_missing_run h (self dfl : nat) d t cleaned :
  h !! self = Some (OCleaner dfl) →
  h !! dfl = Some (ODataFrame d) →
  drop_high_missing_df d t = Ok cleaned →
  drop_high_missing self t h =
  (Ok (fresh (dom h)), <[fresh (dom h) := ODataFrame cleaned]> h).
Proof.
  intros Hself Hdf Hc.
  unfold drop_high_missing, bind, attr_df, frame_at, lift, alloc.
  by rewrite Hself, Hdf, Hc.
Qed.

(** Idempotence on objects: a second cleaner built on the cleaned table
    returns a new table with the contents of the first result. *)
Lemma drop_high_missing_twice h (self dfl : nat) d t :
  h !! self = Some (OCleaner dfl) →
  h !! dfl = Some (ODataFrame d) →
  ∃ r1 h1 c2 h2 r2 h3 d1,
    drop_high_missing self t h = (Ok r1, h1)
    ∧ SolarDataCleaner r1 h1 = (Ok c2, h2)
    ∧ drop_high_missing c2 t h2 = (Ok r2, h3)
    ∧ r1 ≠ r2
    ∧ h3 !! r1 = Some (ODataFrame d1)
    ∧ h3 !! r2 = Some (ODataFrame d1).
Proof.
  intros Hself Hdf.
  pose proof (drop_high_missing_df_eq d t) as Hc.
  set (d1 := mkDataFrame _ _) in Hc.
  assert (drop_high_missing_df d1 t = Ok d1) as Hc1.
  { rewrite drop_high_missing_df_eq, (drop_high_missing_df_clean d t d1 Hc).
    rewrite filter_all; [done|]. intros c _. apply not_elem_of_nil. }
  set (r1 := fresh (dom h)).
  set (h1 := <[r1 := ODataFrame d1]> h).
  set (c2 := fresh (dom h1)).
  set (h2 := <[c2 := OCleaner r1]> h1).
  set (r2 := fresh (dom h2)).
  assert (h1 !! c2 = None) as Hc2 by apply not_elem_of_dom, is_fresh.
  assert (h2 !! r2 = None) as Hr2 by apply not_elem_of_dom, is_fresh.
  assert (h1 !! r1 = Some (ODataFrame d1)) as H1 by apply lookup_insert_eq.
  assert (c2 ≠ r1) as Hne1 by congruence.
  assert (h2 !! r1 = Some (ODataFrame d1)) as H2
    by (unfold h2; by rewrite lookup_insert_ne).
  assert (r2 ≠ r1) as Hne2 by congruence.
  exists r1, h1, c2, h2, r2, (<[r2 := ODataFrame d1]> h2), d1.
  split_and!.
  - by apply drop_high_missing_run with dfl d.
  - done.
  - apply drop_high_missing_run with r1 d1; [apply lookup_insert_eq|done..].
  - done.
  - by rewrite lookup_insert_ne.
  - apply lookup_insert_eq.
Qed.

End Cleaner.

(** ** The metric aggregator *)

Section Metrics.

Implicit Types (df : DataFrame) (metric : string) (c : column).

Lemma numbers_ok c : numeric c → ∃ qs, numbers c = Ok qs.
Proof.
  induction c as [|x c IH]; intros Hnum; [by exists []|].
  destruct IH as [qs Hqs].
  { intros s Hs. apply (Hnum s). by right. }
  destruct x as [|q|s]; simpl.
  - by exists qs.
  - rewrite Hqs. by exists (q :: qs).
  - destruct (Hnum s). by left.
Qed.

Lemma column_mean_ok c : numeric c → ∃ v, column_mean c = Ok v.
Proof.
  intros [qs Hqs]%numbers_ok. unfold column_mean. rewrite Hqs. by eexists.
Qed.

Lemma column_median_ok c : numeric c → ∃ v, column_median c = Ok v.
Proof.
  intros [qs Hqs]%numbers_ok. unfold column_median. rewrite Hqs. by eexists.
Qed.

Lemma column_std_ok c : numeric c → ∃ v, column_std c = Ok v.
Proof.
  intros [qs Hqs]%numbers_ok. unfold column_std. rewrite Hqs. simpl.
  destruct qs as [|? [|? ?]]; by eexists.
Qed.

Lemma reduce_ok (f : column → result stat) (sel : list column) :
  (∀ c, c ∈ sel → ∃ v, f c = Ok v) → ∃ vs, reduce f sel = Ok vs.
Proof.
  induction sel as [|c sel IH]; intros Hf; [by exists []|].
  destruct (Hf c) as [v Hv]; [by left|].
  destruct IH as [vs Hvs]; [intros c' Hc'; apply Hf; by right|].
  simpl. rewrite Hv, Hvs. by eexists.
Qed.

(** [df[metric]] raises exactly when no column carries the label. *)
Lemma getitem_absent df metric :
  metric ∉ labels df → getitem df metric = Raise (KeyError [metric]).
Proof.
  intros Habs. unfold getitem.
  rewrite (filter_none (λ c : string * column, c.1 = metric)); [done|].
  intros c Hc Hl. apply Habs. subst metric.
  unfold labels. by apply list_elem_of_fmap_2.
Qed.

Lemma getitem_present df metric (x : column) :
  (metric, x) ∈ columns df →
  ∃ sel, getitem df metric = Ok sel ∧
         ∀ c, c ∈ sel → (metric, c) ∈ columns df.
Proof.
  intros Hx. unfold getitem.
  destruct (filter _ (columns df)) as [|c0 sel0] eqn:E.
  { exfalso. eapply (filter_nil_not_elem_of _ _ _ E); [|done]. done. }
  eexists. split; [done|]. rewrite <- E.
  intros c [[l c'] [-> [Hl Hc]%list_elem_of_filter]]%list_elem_of_fmap.
  simpl in Hl. by subst l.
Qed.

(** A column is its missing cells and its non-null cells. *)
Lemma count_nonnull_na c : length c = (count_nonnull c + count_na c)%nat.
Proof.
  unfold count_nonnull, count_na.
  induction c as [|x c IH]; [done|].
  rewrite !filter_cons. destruct x; simpl; lia.
Qed.

(** C3.  On a table that has the column, with numbers and missing cells in
    it, [calculate_metrics] returns, and its count is the row count of the
    table: the non-null count of the metric column plus the number of rows
    in which that column is missing, whatever the other columns hold. *)
Theorem calculate_metrics_count df metric (x : column) :
  wf df →
  (metric, x) ∈ columns df →
  (∀ c, (metric, c) ∈ columns df → numeric c) →
  ∃ m, calculate_metrics df metric = Ok m
     ∧ count m = nrows df
     ∧ count m = (count_nonnull x + count_na x)%nat.
Proof.
  intros Hwf Hx Hnum.
  destruct (getitem_present df metric x Hx) as (sel & Hsel & Hin).
  assert (∀ c, c ∈ sel → numeric c) as Hn by (intros c Hc; auto).
  destruct (reduce_ok column_mean sel) as [v1 H1];
    [intros c Hc; apply column_mean_ok; auto|].
  destruct (reduce_ok column_median sel) as [v2 H2];
    [intros c Hc; apply column_median_ok; auto|].
  destruct (reduce_ok column_std sel) as [v3 H3];
    [intros c Hc; apply column_std_ok; auto|].
  unfold calculate_metrics. rewrite Hsel. simpl. rewrite H1, H2, H3. simpl.
  eexists. split; [done|]. simpl. split; [done|].
  rewrite <- count_nonnull_na.
  unfold wf in Hwf. rewrite Forall_forall in Hwf.
  symmetry. apply (Hwf _ Hx).
Qed.

Lemma calculate_metrics_count_witness :
  ∃ m, calculate_metrics Samples.scenario "A" = Ok m
     ∧ count m = 5%nat
     ∧ count m = (4 + 1)%nat.
Proof.
  apply (calculate_metrics_count Samples.scenario "A"
           [Num 1; NA; Num 3; Num 4; Num 5]).
  - repeat constructor.
  - left.
  - intros c Hc s Hs.
    apply elem_of_cons in Hc as [[= ->]|Hc].
    + repeat (apply elem_of_cons in Hs as [?|Hs]; [discriminate|]).
      by apply elem_of_nil in Hs.
    + apply elem_of_cons in Hc as [[=]|Hc]. by apply elem_of_nil in Hc.
Defined.

(** C9.  When no column of the table carries the name, [calculate_metrics]
    raises [KeyError] for that name at its first column access and returns
    no metrics. *)
Theorem calculate_metrics_absent df metric :
  metric ∉ labels df →
  calculate_metrics df metric = Raise (KeyError [metric]).
Proof.
  intros Habs. unfold calculate_metrics.
  by rewrite (getitem_absent df metric Habs).
Qed.

Lemma calculate_metrics_absent_witness :
  calculate_metrics Samples.scenario "GHI" = Raise (KeyError ["GHI"]).
Proof.
  apply calculate_metrics_absent.
  apply (bool_decide_unpack _). vm_compute. exact I.
Defined.

End Metrics.

(** ** The loader *)

Section LoaderFacts.

Variable data_dir : string.

Implicit Types (fs : string → file) (paths : list (string * string)).

(** The loop prints one warning per missing path and appends one frame per
    file found, both in path order. *)
Lemma load_loop_readable fs paths (dataframes : list DataFrame) :
  readable fs paths →
  load_loop fs paths dataframes =
  (Warning_not_found <$> missing_in fs paths,
   Ok (dataframes ++ found_in fs paths)).
Proof.
  revert dataframes.
  induction paths as [|[country path] paths IH]; intros dataframes Hr.
  { simpl. by rewrite app_nil_r. }
  assert (readable fs paths) as Hr' by (intros cp e Hcp; apply Hr; by right).
  simpl. destruct (fs path) as [|[df|e]] eqn:E.
  - by rewrite IH.
  - rewrite IH by done. by rewrite <- app_assoc.
  - destruct (Hr (country, path) e); [by left | done].
Qed.

Lemma load_data_readable fs :
  readable fs (file_paths data_dir) →
  load_data data_dir fs =
  let out := Warning_not_found <$> sources_missing data_dir fs in
  match sources_found data_dir fs with
  | [] => (out, None)
  | dataframes =>
      match concat dataframes with
      | Ok df_all => (out, Some df_all)
      | Raise e => (out ++ [Error_loading_data e], None)
      end
  end.
Proof.
  intros Hr. unfold load_data.
  rewrite (load_loop_readable fs _ [] Hr), app_nil_l.
  fold (sources_found data_dir fs). fold (sources_missing data_dir fs).
  by destruct (sources_found data_dir fs).
Qed.

Lemma concat_nrows (ds : list DataFrame) d :
  concat ds = Ok d → nrows d = sum_list (nrows <$> ds).
Proof.
  unfold concat. destruct ds as [|d0 ds]; [done|].
  repeat case_decide; by intros [= <-].
Qed.

Lemma all_missing_in fs paths :
  (∀ cp, cp ∈ paths → fs cp.2 = Missing) →
  found_in fs paths = [] ∧ missing_in fs paths = paths.*2.
Proof.
  induction paths as [|cp paths IH]; intros Hm; [done|].
  destruct IH as [IH1 IH2]; [intros cp' Hcp'; apply Hm; by right|].
  simpl. rewrite (Hm cp) by left.
  split; [exact IH1 | f_equal; exact IH2].
Qed.

Lemma sources_missing_all fs :
  (∀ cp, cp ∈ file_paths data_dir → fs cp.2 = Missing) →
  sources_found data_dir fs = [] ∧
  sources_missing data_dir fs = (file_paths data_dir).*2.
Proof. apply all_missing_in. Qed.

(** C7, as amended.  When no read of a file that is there fails,
    [load_data] prints one warning for each missing source file and goes on
    to the next path; what it returns is the concatenation of the files
    that were found, each with its Country column, so no row comes from a
    missing source.  When none of the files is found the returned value is
    [None]. *)
Theorem load_data_missing_sources fs :
  readable fs (file_paths data_dir) →
  ∃ out res, load_data data_dir fs = (out, res)
    ∧ (∀ cp, cp ∈ file_paths data_dir → fs cp.2 = Missing →
         Warning_not_found cp.2 ∈ out)
    ∧ (∀ df_all, res = Some df_all ↔
         sources_found data_dir fs ≠ [] ∧
         concat (sources_found data_dir fs) = Ok df_all)
    ∧ (∀ df_all, res = Some df_all →
         nrows df_all = sum_list (nrows <$> sources_found data_dir fs))
    ∧ ((∀ cp, cp ∈ file_paths data_dir → fs cp.2 = Missing) →
         res = None ∧
         out = Warning_not_found <$> (file_paths data_dir).*2).
Proof.
  intros Hr. pose proof (load_data_readable fs Hr) as Heq. cbv zeta in Heq.
  assert (∀ cp, cp ∈ file_paths data_dir → fs cp.2 = Missing →
            Warning_not_found cp.2 ∈
              Warning_not_found <$> sources_missing data_dir fs) as Hwarn.
  { intros cp Hcp Hm. apply list_elem_of_fmap_2. unfold sources_missing.
    apply list_elem_of_omap. exists cp. by rewrite Hm. }
  exists (load_data data_dir fs).1, (load_data data_dir fs).2.
  split; [by destruct (load_data data_dir fs)|].
  rewrite Heq. clear Heq.
  destruct (sources_found data_dir fs) as [|d0 ds] eqn:Ef; cbv iota beta;
    [|destruct (concat (d0 :: ds)) as [df|e] eqn:Ec];
    cbn [fst snd]; split_and!.
  - exact Hwarn.
  - intros df_all. split; [done | by intros [? _]].
  - done.
  - intros Hall. by rewrite (proj2 (sources_missing_all fs Hall)).
  - exact Hwarn.
  - intros df_all. split; [by intros [= <-] | intros [_ ?]; congruence].
  - intros df_all [= <-]. apply (concat_nrows _ _ Ec).
  - intros Hall. destruct (sources_missing_all fs Hall). congruence.
  - intros cp Hcp Hm. apply elem_of_app. left. by apply Hwarn.
  - intros df_all. split; [done | intros [_ ?]; congruence].
  - done.
  - intros Hall. destruct (sources_missing_all fs Hall). congruence.
Qed.

(** C7 as stated fails.  The file of Benin is there but cannot be read
    and the other two files are missing: the load stops at the first file,
    and the two missing files are never looked for, so no warning is
    printed for them. *)
Lemma skips_missing_sources_fails :
  ¬ skips_missing_sources "data" Samples.benin_unreadable.
Proof.
  intros (out & res & Hrun & Hwarn & _).
  vm_compute in Hrun. injection Hrun as <- <-.
  specialize (Hwarn ("Togo", "data/togo_clean.csv")).
  apply elem_of_cons in Hwarn as [Hw|Hw];
    [discriminate Hw | by apply elem_of_nil in Hw | | reflexivity].
  right. right. left.
Qed.

End LoaderFacts.

Lemma load_data_missing_sources_witness :
  ∃ out res, load_data "data" Samples.togo_only = (out, res)
    ∧ Warning_not_found "data/benin_clean.csv" ∈ out
    ∧ (∀ df_all, res = Some df_all → nrows df_all = 5%nat).
Proof.
  destruct (load_data_missing_sources "data" Samples.togo_only)
    as (out & res & Hrun & Hwarn & _ & Hrows & _).
  - intros cp e _. unfold Samples.togo_only. by case_decide.
  - exists out, res. split; [exact Hrun|]. split.
    + apply (Hwarn ("Benin", "data/benin_clean.csv")); [left | reflexivity].
    + intros df_all Hres. by rewrite (Hrows df_all Hres).
Defined.

(** ** The ranking table *)

Section Ranking.

Implicit Types (vals : list fval) (v a b x : fval) (aggs : list Agg).

Lemma rank_weight vals v :
  (2 * count_gt vals v + count_eq vals v)%nat = sum_list (weight v <$> vals).
Proof.
  unfold count_gt, count_eq.
  induction vals as [|x vals IH]; [done|].
  rewrite !filter_cons, fmap_cons. simpl sum_list. rewrite <- IH.
  unfold weight.
  destruct (fgtb x v), (feqb x v); repeat case_decide; simpl; try done; lia.
Qed.

Lemma weight_antitone a b x : fleb b a = true → (weight a x ≤ weight b x)%nat.
Proof.
  unfold weight, fleb, fgtb.
  destruct a as [| |qa|], b as [| |qb|], x as [| |qx|]; simpl;
    intros Hba; try done; try lia.
  all: repeat match goal with
         | |- context [if ?c then _ else _] => destruct c eqn:?
         end;
    Qbool; first [lia | exfalso; lra].
Qed.

Lemma sum_list_mono {A} (f g : A → nat) (l : list A) :
  (∀ y, (f y ≤ g y)%nat) → (sum_list (f <$> l) ≤ sum_list (g <$> l))%nat.
Proof.
  intros Hfg. induction l as [|y l IH]; [done|].
  rewrite !fmap_cons. simpl. specialize (Hfg y). lia.
Qed.

(** A greater value has a smaller rank; both ranks are finite. *)
Lemma rank_desc_antitone vals a b :
  fleb b a = true →
  ∃ p q, rank_desc vals a = Fin p ∧ rank_desc vals b = Fin q ∧ (p <= q)%Q.
Proof.
  intros Hba. destruct (fleb_not_nan _ _ Hba) as [Hb Ha].
  unfold rank_desc. rewrite Ha, Hb. do 2 eexists. do 2 (split; [done|]).
  rewrite !rank_weight.
  pose proof (sum_list_mono (weight a) (weight b) vals
                (λ x, weight_antitone a b x Hba)).
  unfold Qle. simpl. lia.
Qed.

(** The ranked row of a group. *)
Lemma rankings_lookup aggs (i : nat) (g : Agg) :
  aggs !! i = Some g →
  rankings aggs !! i =
  Some (let rounded := round_row <$> aggs in
        let r := round_row g in
        let sr := rank_desc (Stability <$> rounded) (Stability r) in
        let pr := rank_desc (Average <$> rounded) (Average r) in
        mkRanked r sr pr (fdiv_pos (fadd pr sr) 2)).
Proof.
  intros Hg. unfold rankings. by rewrite !list_lookup_fmap, Hg.
Qed.

(** The score falls when both rounded values rise. *)
Lemma overall_score_antitone aggs (i j : nat) (A B : Agg) (rA rB : Ranked) :
  aggs !! i = Some A → aggs !! j = Some B →
  rankings aggs !! i = Some rA → rankings aggs !! j = Some rB →
  fleb (Average (row rB)) (Average (row rA)) = true →
  fleb (Stability (row rB)) (Stability (row rA)) = true →
  fleb (OverallScore rA) (OverallScore rB) = true.
Proof.
  intros HA HB HrA HrB Havg Hstab.
  rewrite (rankings_lookup aggs i A HA) in HrA.
  rewrite (rankings_lookup aggs j B HB) in HrB. cbv zeta in HrA, HrB.
  injection HrA as <-. injection HrB as <-. cbn [row] in Havg, Hstab.
  cbn [Average Stability round_row] in Havg, Hstab. cbn [OverallScore].
  destruct (rank_desc_antitone
              (Average <$> (round_row <$> aggs)) _ _ Havg)
    as (p & p' & -> & -> & Hp).
  destruct (rank_desc_antitone
              (Stability <$> (round_row <$> aggs)) _ _ Hstab)
    as (s & s' & -> & -> & Hs).
  cbn [fadd fdiv_pos]. apply fleb_Fin.
  unfold Qdiv. change (/ (2 # 1))%Q with (1 # 2)%Q. lra.
Qed.

Lemma row_rankings aggs (i : nat) (g : Agg) (r : Ranked) :
  aggs !! i = Some g → rankings aggs !! i = Some r → row r = round_row g.
Proof.
  intros Hg Hr. rewrite (rankings_lookup aggs i g Hg) in Hr. cbv zeta in Hr.
  by injection Hr as <-.
Qed.

(** C6.  For two groups A and B of one ranking table, if the average of A
    is strictly greater than that of B and the stability of A is at least
    that of B, then the overall score of A is at most that of B.  This
    holds whether the two averages and stabilities are read before the
    rounding to two decimals or from the rounded table. *)
Theorem overall_score_monotone aggs (i j : nat) (A B : Agg) (rA rB : Ranked) :
  aggs !! i = Some A → aggs !! j = Some B →
  rankings aggs !! i = Some rA → rankings aggs !! j = Some rB →
  (fgtb (Average A) (Average B) = true
   ∧ fgeb (Stability A) (Stability B) = true)
  ∨ (fgtb (Average (row rA)) (Average (row rB)) = true
     ∧ fgeb (Stability (row rA)) (Stability (row rB)) = true) →
  fleb (OverallScore rA) (OverallScore rB) = true.
Proof.
  intros HA HB HrA HrB Hcmp.
  apply (overall_score_antitone aggs i j A B); try done.
  - destruct Hcmp as [[Hgt _]|[Hgt _]].
    + rewrite (row_rankings aggs i A rA), (row_rankings aggs j B rB) by done.
      apply round2_mono, fltb_fleb, Hgt.
    + apply fltb_fleb, Hgt.
  - destruct Hcmp as [[_ Hge]|[_ Hge]].
    + rewrite (row_rankings aggs i A rA), (row_rankings aggs j B rB) by done.
      apply round2_mono, Hge.
    + apply Hge.
Qed.

Lemma overall_score_monotone_witness :
  ∃ rA rB,
    rankings Samples.groups_ab !! 0%nat = Some rA
    ∧ rankings Samples.groups_ab !! 1%nat = Some rB
    ∧ fleb (OverallScore rA) (OverallScore rB) = true.
Proof.
  eexists _, _. split; [reflexivity|]. split; [reflexivity|].
  eapply (overall_score_monotone Samples.groups_ab 0 1);
    [reflexivity | reflexivity | reflexivity | reflexivity |].
  left. split; reflexivity.
Defined.

Lemma feqb_refl v : isnan v = false → feqb v v = true.
Proof. destruct v as [| |q|]; try done. intros _. by apply Qeqb_eq. Qed.

Lemma pairwise_distinct_cons x vals :
  pairwise_distinct (x :: vals) →
  pairwise_distinct vals ∧
  ∀ y, y ∈ vals → feqb x y = false ∧ feqb y x = false.
Proof.
  intros Hd. split.
  - intros i j a b Hij Ha Hb. apply (Hd (S i) (S j)); try done. lia.
  - intros y [k Hk]%list_elem_of_lookup. split.
    + by apply (Hd 0%nat (S k)).
    + by apply (Hd (S k) 0%nat).
Qed.

(** Without ties there is nothing to merge. *)
Lemma distinct_id vals : pairwise_distinct vals → distinct vals = vals.
Proof.
  induction vals as [|x vals IH]; [done|].
  intros [Hd Hx]%pairwise_distinct_cons. simpl. rewrite (IH Hd).
  f_equal. apply filter_all. intros y Hy. by apply Hx.
Qed.

(** Without ties an entry is equal to itself only. *)
Lemma count_eq_distinct vals v :
  pairwise_distinct vals → v ∈ vals → isnan v = false → count_eq vals v = 1%nat.
Proof.
  intros Hd Hv Hn. unfold count_eq.
  induction vals as [|x vals IH]; [by apply elem_of_nil in Hv|].
  apply pairwise_distinct_cons in Hd as [Hd Hx].
  rewrite filter_cons.
  apply elem_of_cons in Hv as [->|Hin].
  - rewrite decide_True by (by apply feqb_refl).
    rewrite filter_none; [done|].
    intros y Hy. rewrite (proj2 (Hx y Hy)). done.
  - rewrite decide_False by (rewrite (proj1 (Hx v Hin)); done).
    by apply IH.
Qed.

(** Without ties the rank of pandas is the dense rank. *)
Lemma rank_desc_dense vals v :
  pairwise_distinct vals → v ∈ vals →
  fsame (rank_desc vals v) (spec_dense_rank_desc vals v).
Proof.
  intros Hd Hv. unfold rank_desc, spec_dense_rank_desc.
  destruct (isnan v) eqn:Hn; [done|].
  rewrite (distinct_id vals Hd), (count_eq_distinct vals v Hd Hv Hn).
  unfold fsame, Qeq. simpl. lia.
Qed.

Lemma insert_desc_perm x s : insert_desc x s ≡ₚ x :: s.
Proof.
  induction s as [|y s IH]; [done|]. simpl.
  destruct (fleb y x); [done|]. rewrite IH. apply Permutation_swap.
Qed.

Lemma sort_desc_perm vals : sort_desc vals ≡ₚ vals.
Proof.
  induction vals as [|x vals IH]; [done|]. simpl.
  by rewrite insert_desc_perm, IH.
Qed.

Lemma insert_desc_sorted x s :
  isnan x = false → Forall (λ x, isnan x = false) s →
  StronglySorted (λ a b, fleb b a = true) s → StronglySorted (λ a b, fleb b a = true) (insert_desc x s).
Proof.
  intros Hx Hs Hsorted.
  induction Hsorted as [|y s Hsorted IH Hy]; simpl.
  { repeat constructor. }
  apply Forall_cons in Hs as [Hvy Hs].
  destruct (fleb y x) eqn:E.
  - constructor; [by constructor|].
    constructor; [done|].
    eapply Forall_impl; [exact Hy|]. intros z Hz. cbn beta in *.
    by apply fleb_trans with y.
  - constructor; [by apply IH|].
    rewrite insert_desc_perm. constructor; [|done].
    apply fltb_fleb. by apply fleb_false_fltb.
Qed.

Lemma sort_desc_sorted vals :
  Forall (λ x, isnan x = false) vals → StronglySorted (λ a b, fleb b a = true) (sort_desc vals).
Proof.
  induction vals as [|x vals IH]; intros Hv; [constructor|].
  apply Forall_cons in Hv as [Hx Hv]. simpl.
  apply insert_desc_sorted; [done| |by apply IH].
  by rewrite sort_desc_perm.
Qed.

Lemma length_places k s v : length (places k s v) = count_eq s v.
Proof.
  revert k. unfold count_eq.
  induction s as [|x s IH]; intros k; [done|].
  simpl. rewrite filter_cons, length_app, IH.
  destruct (feqb x v); by case_decide.
Qed.

(** In a list sorted from the largest down, the entries equal to [v] come
    right after the entries greater than [v]. *)
Lemma places_sorted k s v :
  isnan v = false → Forall (λ x, isnan x = false) s → StronglySorted (λ a b, fleb b a = true) s →
  (2 * sum_list (places k s v) + count_eq s v =
   count_eq s v * (2 * (k + count_gt s v) + count_eq s v))%nat.
Proof.
  intros Hv Hs Hsorted. revert k.
  induction Hsorted as [|x s Hsorted IH Hx]; intros k; [done|].
  apply Forall_cons in Hs as [Hvx Hs].
  specialize (IH Hs (S k)).
  assert (fgtb x v = false →
          filter (λ y, fgtb y v = true) s = []) as Hnone.
  { intros Egt. apply filter_none. intros y Hy Hgt.
    rewrite Forall_forall in Hx. specialize (Hx y Hy). cbn beta in Hx.
    unfold fgtb in *.
    assert (fltb v x = true) by (by eapply fltb_fleb_trans).
    congruence. }
  assert (fgtb x v = false → feqb x v = false →
          filter (λ y, feqb y v = true) s = []) as Hnone'.
  { intros Egt Eeq. apply filter_none. intros y Hy Heq.
    rewrite Forall_forall in Hx. specialize (Hx y Hy). cbn beta in Hx.
    rewrite Forall_forall in Hs. specialize (Hs y Hy). cbn beta in Hs.
    unfold fleb, fgtb in *.
    destruct y as [| |qy|], v as [| |qv|], x as [| |qx|];
      simpl in *; try done.
    apply not_true_iff_false in Eeq. apply Eeq, Qeqb_eq.
    Qbool; lra. }
  unfold count_eq, count_gt in *. simpl places.
  rewrite !filter_cons, sum_list_with_app.
  destruct (fgtb x v) eqn:Egt, (feqb x v) eqn:Eeq.
  - apply feqb_not_fgtb in Eeq. congruence.
  - repeat case_decide; try done. simpl. simpl in IH. nia.
  - repeat case_decide; try done.
    rewrite (Hnone eq_refl) in *. simpl. simpl in IH. nia.
  - repeat case_decide; try done.
    rewrite (Hnone eq_refl), (Hnone' eq_refl eq_refl) in *. simpl.
    simpl in IH. lia.
Qed.

Lemma count_gt_perm s s' v : s ≡ₚ s' → count_gt s v = count_gt s' v.
Proof. intros H. unfold count_gt. by rewrite H. Qed.

Lemma count_eq_perm s s' v : s ≡ₚ s' → count_eq s v = count_eq s' v.
Proof. intros H. unfold count_eq. by rewrite H. Qed.

Lemma count_gt_valid vals v :
  count_gt (filter (λ x, isnan x = false) vals) v = count_gt vals v.
Proof.
  unfold count_gt. rewrite list_filter_filter. f_equal.
  apply filter_ext_in. intros x _. split; [by intros [? _]|].
  intros H. split; [done|]. unfold fgtb in H. by destruct x, v.
Qed.

Lemma count_eq_valid vals v :
  count_eq (filter (λ x, isnan x = false) vals) v = count_eq vals v.
Proof.
  unfold count_eq. rewrite list_filter_filter. f_equal.
  apply filter_ext_in. intros x _. split; [by intros [? _]|].
  intros H. split; [done|]. by destruct x, v.
Qed.

Lemma count_eq_pos vals v : v ∈ vals → isnan v = false → (0 < count_eq vals v)%nat.
Proof.
  intros Hv Hn. unfold count_eq.
  assert (v ∈ filter (λ x, feqb x v = true) vals) as Hin.
  { apply list_elem_of_filter. split; [by apply feqb_refl | done]. }
  destruct (filter _ vals); [by apply elem_of_nil in Hin | simpl; lia].
Qed.

(** The rank of pandas is the mean of the places of the tie. *)
Lemma rank_desc_average vals v :
  v ∈ vals → fsame (rank_desc vals v) (spec_average_rank_desc vals v).
Proof.
  intros Hv. unfold rank_desc, spec_average_rank_desc.
  destruct (isnan v) eqn:Hn; [done|]. cbv zeta.
  set (s := sort_desc (filter (λ x, isnan x = false) vals)).
  assert (s ≡ₚ filter (λ x, isnan x = false) vals) as Hperm by apply sort_desc_perm.
  assert (Forall (λ x, isnan x = false) s) as Hvalid.
  { rewrite Hperm. apply Forall_forall. by intros x [? _]%list_elem_of_filter. }
  assert (StronglySorted (λ a b, fleb b a = true) s) as Hsorted.
  { apply sort_desc_sorted. apply Forall_forall.
    by intros x [? _]%list_elem_of_filter. }
  pose proof (places_sorted 1 s v Hn Hvalid Hsorted) as Hsum.
  rewrite length_places.
  rewrite (count_gt_perm _ _ v Hperm), (count_eq_perm _ _ v Hperm) in *.
  rewrite count_gt_valid, count_eq_valid in *.
  pose proof (count_eq_pos vals v Hv Hn) as Hpos.
  set (e := count_eq vals v) in *. set (g := count_gt vals v) in *.
  set (sm := sum_list (places 1 s v)) in *.
  unfold fsame.
  apply (Qmult_inj_r _ _ (inject_Z (Z.of_nat e))).
  { change 0%Q with (inject_Z 0). rewrite inject_Z_injective. lia. }
  unfold Qdiv. rewrite <- Qmult_assoc, (Qmult_comm (/ _)), Qmult_inv_r.
  2:{ change 0%Q with (inject_Z 0). rewrite inject_Z_injective. lia. }
  unfold Qeq. simpl. nia.
Qed.

(** The rank of pandas: one, plus the number of greater values, plus half
    the number of other equal values. *)
Lemma rank_desc_formula vals v :
  isnan v = false →
  fsame (rank_desc vals v)
        (Fin (1 + inject_Z (Z.of_nat (count_gt vals v))
              + (inject_Z (Z.of_nat (count_eq vals v)) - 1) / 2)).
Proof.
  intros Hn. unfold rank_desc. rewrite Hn. unfold fsame.
  unfold Qdiv. change (/ 2)%Q with (1 # 2)%Q.
  rewrite (Qmake_Qdiv _ 2). unfold Qdiv. change (/ inject_Z (Z.pos 2))%Q with (1 # 2)%Q.
  rewrite Nat2Z.inj_add, Nat2Z.inj_add, Nat2Z.inj_mul, !inject_Z_plus, inject_Z_mult.
  change (inject_Z (Z.of_nat 2)) with 2%Q. change (inject_Z (Z.of_nat 1)) with 1%Q.
  lra.
Qed.

(** C2, as amended.  The ranks are taken on the values rounded to two
    decimals.  PotentialRank and StabilityRank are the ranks, descending,
    of each group's Average and Stability under the default tie rule of
    pandas, "average": with the values that are not NaN sorted from the
    largest down and the places numbered from 1, a group gets the mean of
    the places that hold a value equal to its own; that is one, plus the
    number of groups with a greater value, plus half the number of other
    groups with an equal value.  When no two groups have equal rounded
    values this is the dense rank (1 for the highest, no gaps).
    OverallScore is (PotentialRank + StabilityRank) / 2. *)
Theorem rankings_ranks aggs (i : nat) (g : Agg) (r : Ranked) :
  aggs !! i = Some g → rankings aggs !! i = Some r →
  row r = round_row g
  ∧ fsame (PotentialRank r)
          (spec_average_rank_desc (Average <$> (round_row <$> aggs))
                                  (round2 (Average g)))
  ∧ fsame (StabilityRank r)
          (spec_average_rank_desc (Stability <$> (round_row <$> aggs))
                                  (round2 (Stability g)))
  ∧ (isnan (Average g) = false →
       fsame (PotentialRank r)
         (Fin (1 + inject_Z (Z.of_nat
                      (count_gt (Average <$> (round_row <$> aggs))
                                (round2 (Average g))))
               + (inject_Z (Z.of_nat
                     (count_eq (Average <$> (round_row <$> aggs))
                               (round2 (Average g)))) - 1) / 2)))
  ∧ (isnan (Stability g) = false →
       fsame (StabilityRank r)
         (Fin (1 + inject_Z (Z.of_nat
                      (count_gt (Stability <$> (round_row <$> aggs))
                                (round2 (Stability g))))
               + (inject_Z (Z.of_nat
                     (count_eq (Stability <$> (round_row <$> aggs))
                               (round2 (Stability g)))) - 1) / 2)))
  ∧ OverallScore r = fdiv_pos (fadd (PotentialRank r) (StabilityRank r)) 2
  ∧ (pairwise_distinct (Average <$> (round_row <$> aggs)) →
       fsame (PotentialRank r)
             (spec_dense_rank_desc (Average <$> (round_row <$> aggs))
                                   (round2 (Average g))))
  ∧ (pairwise_distinct (Stability <$> (round_row <$> aggs)) →
       fsame (StabilityRank r)
             (spec_dense_rank_desc (Stability <$> (round_row <$> aggs))
                                   (round2 (Stability g)))).
Proof.
  intros Hg Hr. rewrite (rankings_lookup aggs i g Hg) in Hr. cbv zeta in Hr.
  injection Hr as <-. cbn [row PotentialRank StabilityRank OverallScore].
  cbn [Average Stability round_row].
  assert (round2 (Average g) ∈ Average <$> (round_row <$> aggs)) as Ha.
  { apply list_elem_of_lookup. exists i. by rewrite !list_lookup_fmap, Hg. }
  assert (round2 (Stability g) ∈ Stability <$> (round_row <$> aggs)) as Hs.
  { apply list_elem_of_lookup. exists i. by rewrite !list_lookup_fmap, Hg. }
  split_and!; try done.
  - by apply rank_desc_average.
  - by apply rank_desc_average.
  - intros Hn. apply rank_desc_formula. by rewrite isnan_round2.
  - intros Hn. apply rank_desc_formula. by rewrite isnan_round2.
  - intros Hd. by apply rank_desc_dense.
  - intros Hd. by apply rank_desc_dense.
Qed.

Lemma rankings_ranks_witness :
  ∃ rX, rankings Samples.groups_tied !! 0%nat = Some rX
      ∧ fsame (PotentialRank rX) (Fin (3 # 2))
      ∧ fsame (StabilityRank rX) (Fin 1).
Proof.
  destruct (rankings Samples.groups_tied !! 0%nat) as [rX|] eqn:E;
    [|vm_compute in E; discriminate E].
  exists rX. split; [reflexivity|].
  destruct (rankings_ranks Samples.groups_tied 0 _ rX eq_refl E)
    as (_ & Hp & Hs & _).
  vm_compute in Hp, Hs |- *. split; [exact Hp | exact Hs].
Defined.

(** C2 as stated fails on a tie: two groups with the same average both get
    PotentialRank 1.5, where the dense rank is 1 for both. *)
Lemma ranks_are_dense_fails : ¬ ranks_are_dense Samples.groups_tied.
Proof.
  intros Hdense.
  destruct (Hdense 0%nat _ _ eq_refl eq_refl) as [Hp _].
  vm_compute in Hp. discriminate Hp.
Qed.

End Ranking.

(** * Further properties *)

(** ** The filter and its threshold *)

Section FilterThreshold.

Implicit Types (d : DataFrame) (t : fval) (c : string * list cell).

Lemma fgtb_fleb_trans x t t' :
  fgtb x t' = true → fleb t t' = true → fgtb x t = true.
Proof.
  unfold fgtb, fleb.
  destruct x as [| |qx|], t as [| |qt|], t' as [| |qt'|]; simpl;
    intros H1 H2; try done.
  Qbool; apply Qltb_lt; lra.
Qed.

(** The labels dropped at a threshold are dropped at every lower one. *)
Lemma cols_to_drop_mono d t t' (l : string) :
  fleb t t' = true →
  l ∈ index_where_gt (isna_mean d) t' → l ∈ index_where_gt (isna_mean d) t.
Proof.
  intros Hle (c & Hc & Hl & He)%elem_of_cols_to_drop.
  apply elem_of_cols_to_drop. exists c. split_and!; [done..|].
  by apply fgtb_fleb_trans with t'.
Qed.

Lemma filter_sublist_impl {A} (P Q : A → Prop)
    `{!∀ x, Decision (P x), !∀ x, Decision (Q x)} (l : list A) :
  (∀ x, x ∈ l → P x → Q x) → filter P l `sublist_of` filter Q l.
Proof.
  intros HPQ.
  replace (filter P l) with (filter P (filter Q l)); [apply sublist_filter|].
  rewrite list_filter_filter. apply filter_ext_in.
  intros x Hx. split; [by intros [? _] | intros HP; split; auto].
Qed.

(** Raising the threshold only adds columns to the result: the columns
    kept at [t] are kept, in the same order, at every [t' >= t]. *)
Theorem drop_high_missing_threshold_monotone d t t' :
  fleb t t' = true →
  ∃ d1 d2, drop_high_missing_df d t = Ok d1
         ∧ drop_high_missing_df d t' = Ok d2
         ∧ columns d1 `sublist_of` columns d2.
Proof.
  intros Hle. eexists _, _.
  split; [apply drop_high_missing_df_eq|].
  split; [apply drop_high_missing_df_eq|].
  cbn [columns]. apply filter_sublist_impl.
  intros c _ Hn Hin. apply Hn. by apply cols_to_drop_mono with t'.
Qed.

Lemma drop_high_missing_threshold_monotone_witness :
  ∃ d1 d2,
    drop_high_missing_df Samples.sample_data (Fin (2 # 10)) = Ok d1
    ∧ drop_high_missing_df Samples.sample_data (Fin (3 # 10)) = Ok d2
    ∧ columns d1 `sublist_of` columns d2.
Proof.
  apply drop_high_missing_threshold_monotone. reflexivity.
Defined.

(** Filtering at [t] and then at a stricter [t' <= t] is filtering at [t']
    at once. *)
Theorem drop_high_missing_compose d t t' :
  fleb t' t = true →
  ∃ d1 d2, drop_high_missing_df d t = Ok d1
         ∧ drop_high_missing_df d1 t' = Ok d2
         ∧ drop_high_missing_df d t' = Ok d2.
Proof.
  intros Hle.
  pose proof (drop_high_missing_df_eq d t) as H1.
  set (d1 := mkDataFrame _ _) in H1.
  exists d1, (mkDataFrame (nrows d)
                (filter (λ c, c.1 ∉ index_where_gt (isna_mean d) t')
                   (columns d))).
  split; [done|]. split; [|apply drop_high_missing_df_eq].
  assert (columns d1 =
          filter (λ c, c.1 ∉ index_where_gt (isna_mean d) t) (columns d))
    as Hcols by done.
  assert (nrows d1 = nrows d) as Hrows by done.
  rewrite drop_high_missing_df_eq, Hcols, Hrows.
  do 2 f_equal. rewrite list_filter_filter. apply filter_ext_in.
  intros c Hc. split.
  - intros [Hn1 Hn] (c' & Hc' & Hl & He)%elem_of_cols_to_drop.
    apply Hn1, elem_of_cols_to_drop. exists c'. split_and!; [|done..].
    rewrite Hcols. apply list_elem_of_filter.
    split; [by rewrite Hl | done].
  - intros Hn. split.
    + intros (c' & Hc' & Hl & He)%elem_of_cols_to_drop.
      apply Hn, elem_of_cols_to_drop. exists c'. split_and!; [|done..].
      rewrite Hcols in Hc'.
      by apply list_elem_of_filter in Hc' as [_ ?].
    + intros Hin. apply Hn. by apply cols_to_drop_mono with t.
Qed.

Lemma drop_high_missing_compose_witness :
  ∃ d1 d2,
    drop_high_missing_df Samples.sample_data (Fin (3 # 10)) = Ok d1
    ∧ drop_high_missing_df d1 (Fin (1 # 10)) = Ok d2
    ∧ drop_high_missing_df Samples.sample_data (Fin (1 # 10)) = Ok d2.
Proof.
  apply drop_high_missing_compose. reflexivity.
Defined.

(** A missing fraction is NaN or lies between 0 and 1. *)
Lemma missing_fraction_range (x : list cell) :
  missing_fraction x = NaN
  ∨ ∃ q, missing_fraction x = Fin q ∧ (0 <= q <= 1)%Q.
Proof.
  unfold missing_fraction, bool_mean.
  destruct (length x) as [|n] eqn:E; [by left|]. right.
  apply fl64_unit.
  assert (count_na x ≤ length x)%nat as Hle
    by (unfold count_na; apply length_filter).
  rewrite E in Hle. unfold Qle. simpl. lia.
Qed.

(** At a threshold of 1 or more, at plus infinity and at NaN nothing is
    dropped: the table comes back whole. *)
Theorem drop_high_missing_threshold_high d t :
  fleb (Fin 1) t = true ∨ isnan t = true →
  drop_high_missing_df d t = Ok d.
Proof.
  intros Ht. rewrite drop_high_missing_df_eq.
  rewrite filter_all; [by destruct d|].
  intros c Hc (c' & _ & _ & He)%elem_of_cols_to_drop.
  destruct (missing_fraction_range c'.2) as [Hf|(q & Hf & Hq)];
    rewrite Hf in He.
  - by destruct t.
  - unfold fgtb, fleb in *.
    destruct Ht as [Ht|Ht]; destruct t as [| |qt|]; simpl in *; try done.
    Qbool; lra.
Qed.

Lemma drop_high_missing_threshold_high_witness :
  drop_high_missing_df Samples.twins (Fin 1) = Ok Samples.twins.
Proof.
  apply drop_high_missing_threshold_high. left. reflexivity.
Defined.

(** Below zero, and at minus infinity, every column of a table with at
    least one row is dropped; the rows stay. *)
Theorem drop_high_missing_threshold_negative d t :
  wf d → nrows d ≠ 0%nat → fltb t (Fin 0) = true →
  drop_high_missing_df d t = Ok (mkDataFrame (nrows d) []).
Proof.
  intros Hwf Hrows Ht. rewrite drop_high_missing_df_eq. do 2 f_equal.
  apply filter_none. intros c Hc Hn. apply Hn.
  apply elem_of_cols_to_drop. exists c. split_and!; [done..|].
  unfold wf in Hwf. rewrite Forall_forall in Hwf. specialize (Hwf c Hc).
  destruct (missing_fraction_range c.2) as [Hf|(q & Hf & Hq)].
  - apply (f_equal isnan) in Hf. simpl in Hf.
    apply missing_fraction_nan in Hf. rewrite Hf in Hwf. simpl in Hwf. lia.
  - rewrite Hf. unfold fgtb.
    destruct t as [| |qt|]; simpl in *; try done.
    Qbool. apply Qltb_lt. lra.
Qed.

Lemma drop_high_missing_threshold_negative_witness :
  drop_high_missing_df Samples.scenario (Fin (-1 # 10)) =
  Ok (mkDataFrame 5 []).
Proof.
  apply (drop_high_missing_threshold_negative Samples.scenario);
    [repeat constructor | discriminate | reflexivity].
Defined.

(** The filter keeps a table well formed and keeps its labels distinct. *)
Theorem drop_high_missing_invariants d t d' :
  drop_high_missing_df d t = Ok d' →
  (wf d → wf d') ∧ (NoDup (labels d) → NoDup (labels d')).
Proof.
  intros Hd. destruct (drop_high_missing_df_sub d t d' Hd) as [Hn Hsub].
  split.
  - unfold wf. rewrite Hn, !Forall_forall. intros Hwf c Hc.
    apply Hwf. by eapply elem_of_sublist.
  - intros Hnd. apply (sublist_NoDup _ _ Hnd).
    unfold labels. by apply fmap_sublist.
Qed.

Lemma drop_high_missing_invariants_witness :
  ∃ d', drop_high_missing_df Samples.sample_data (Fin (3 # 10)) = Ok d'
      ∧ wf d' ∧ NoDup (labels d').
Proof.
  destruct (drop_high_missing_df Samples.sample_data (Fin (3 # 10)))
    as [d'|e] eqn:E; [|vm_compute in E; discriminate E].
  exists d'. split; [reflexivity|].
  destruct (drop_high_missing_invariants Samples.sample_data (Fin (3 # 10)) d'
              E) as [Hwf Hnd].
  split.
  - apply Hwf. repeat constructor.
  - apply Hnd. apply (bool_decide_unpack _). vm_compute. exact I.
Defined.

End FilterThreshold.

(** ** A second cleaner *)

Lemma drop_high_missing_twice_witness :
  ∃ r1 h1 c2 h2 r2 h3 d1,
    drop_high_missing 1%nat (Fin (15 # 100)) Samples.heap0 = (Ok r1, h1)
    ∧ SolarDataCleaner r1 h1 = (Ok c2, h2)
    ∧ drop_high_missing c2 (Fin (15 # 100)) h2 = (Ok r2, h3)
    ∧ r1 ≠ r2
    ∧ h3 !! r1 = Some (ODataFrame d1)
    ∧ h3 !! r2 = Some (ODataFrame d1).
Proof.
  apply (drop_high_missing_twice Samples.heap0 1%nat 0%nat Samples.scenario);
    reflexivity.
Defined.

(** ** The loader: read failures and the Country column *)

Section LoaderMore.

Variable data_dir : string.

Implicit Types (fs : string → file) (paths : list (string * string)).

(** The loop stops at the first file that cannot be read: the paths
    before it print their warnings, the paths after it are not looked at. *)
Lemma load_loop_unreadable fs before cp after e (dataframes : list DataFrame) :
  readable fs before →
  fs cp.2 = Present (Raise e) →
  load_loop fs (before ++ cp :: after) dataframes =
  (Warning_not_found <$> missing_in fs before, Raise e).
Proof.
  intros Hr He. revert dataframes.
  induction before as [|[country path] before IH]; intros dataframes.
  { destruct cp as [country path]. simpl in *. by rewrite He. }
  assert (readable fs before) as Hr'
    by (intros cp' e' Hcp; apply Hr; by right).
  simpl. destruct (fs path) as [|[df|e']] eqn:E.
  - by rewrite (IH Hr').
  - by rewrite (IH Hr').
  - destruct (Hr (country, path) e'); [by left | done].
Qed.

(** Among paths of which one cannot be read there is a first such path. *)
Lemma first_unreadable fs paths :
  (∃ cp e, cp ∈ paths ∧ fs cp.2 = Present (Raise e)) →
  ∃ before cp after e,
    paths = before ++ cp :: after
    ∧ readable fs before
    ∧ fs cp.2 = Present (Raise e).
Proof.
  induction paths as [|cp0 paths IH]; intros (cp & e & Hcp & He).
  { by apply elem_of_nil in Hcp. }
  destruct (fs cp0.2) as [|[df|e0]] eqn:E0.
  1, 2: destruct IH as (before & cp1 & after & e1 & -> & Hr & H1);
    [apply elem_of_cons in Hcp as [->|Hcp]; [congruence | by exists cp, e]|];
    exists (cp0 :: before), cp1, after, e1; split_and!; [done| |done];
    intros cp' e' [->|Hcp']%elem_of_cons; [congruence | by apply Hr].
  exists [], cp0, paths, e0. split_and!; [done| |done].
  intros cp' e' Hcp'. by apply elem_of_nil in Hcp'.
Qed.

(** One source file that is there but cannot be read makes the whole load
    fail.  At the first such file, in path order, the load stops: the lines
    printed are the warnings for the missing files before it, in path
    order, and then the error of that file; the value is [None]; the files
    after it are neither read nor warned about, whatever is there. *)
Theorem load_data_read_failure fs before cp after e :
  file_paths data_dir = before ++ cp :: after →
  readable fs before →
  fs cp.2 = Present (Raise e) →
  load_data data_dir fs =
  ((Warning_not_found <$> missing_in fs before) ++ [Error_loading_data e],
   None).
Proof.
  intros Hpaths Hr He. unfold load_data.
  by rewrite Hpaths, (load_loop_unreadable fs before cp after e [] Hr He).
Qed.

Lemma setitem_country_filled (names : list string) (df : DataFrame) country :
  country ∈ names →
  country_filled names (setitem_scalar df "Country" (Str country)).
Proof.
  intros Hname.
  assert (Forall (λ x, x ∈ Str <$> names) (replicate (nrows df) (Str country)))
    as Hrep.
  { apply Forall_forall. intros x [-> _]%elem_of_replicate.
    by apply list_elem_of_fmap_2. }
  unfold setitem_scalar, country_filled, labels.
  destruct (decide ("Country" ∈ (columns df).*1)) as [Hin|Hout];
    cbn [columns]; split.
  - rewrite <- list_fmap_compose.
    apply list_elem_of_fmap in Hin as (c & Hl & Hc).
    apply list_elem_of_fmap. exists c. split; [|done].
    simpl. by case_decide.
  - intros c' (c & -> & Hc)%list_elem_of_fmap Hl.
    case_decide; [done|]. by destruct c.
  - rewrite fmap_app. apply elem_of_app. right. by left.
  - intros c [Hc| ->%list_elem_of_singleton]%elem_of_app Hl; [|done].
    destruct Hout. rewrite <- Hl. by apply list_elem_of_fmap_2.
Qed.

Lemma load_loop_Forall (P : DataFrame → Prop) fs paths
    (dataframes : list DataFrame) out dfs :
  (∀ cp df, cp ∈ paths → P (setitem_scalar df "Country" (Str cp.1))) →
  Forall P dataframes →
  load_loop fs paths dataframes = (out, Ok dfs) →
  Forall P dfs.
Proof.
  revert dataframes out.
  induction paths as [|[country path] paths IH]; intros dataframes out HP Hacc.
  { simpl. by intros [= _ <-]. }
  assert (∀ cp df, cp ∈ paths → P (setitem_scalar df "Country" (Str cp.1)))
    as HP' by (intros cp df Hcp; apply HP; by right).
  simpl. destruct (fs path) as [|[df|e]] eqn:E.
  - destruct (load_loop fs paths dataframes) as [out' r] eqn:Hrun.
    intros [= _ ->]. by eapply IH.
  - apply IH; [done|]. apply Forall_app. split; [done|].
    constructor; [|done]. apply (HP (country, path)). by left.
  - done.
Qed.

Lemma labels_imap {B} (f : nat → string * list cell → B)
    (cols : list (string * list cell)) :
  (imap (λ i c, (c.1, f i c)) cols).*1 = cols.*1.
Proof.
  revert f. induction cols as [|c cols IH]; intros f; [done|].
  simpl. f_equal. apply (IH (f ∘ S)).
Qed.

Lemma elem_of_union_labels (ds : list DataFrame) (l : string) :
  l ∈ union_labels ds ↔ ∃ d, d ∈ ds ∧ l ∈ labels d.
Proof.
  unfold union_labels.
  assert (∀ seen,
            l ∈ foldl (λ seen d, seen ++ filter (λ l, l ∉ seen) (labels d))
                  seen ds ↔
            l ∈ seen ∨ ∃ d, d ∈ ds ∧ l ∈ labels d) as Hgen.
  { induction ds as [|d0 ds IH]; intros seen.
    - simpl. split; [by left|]. intros [?|(d & Hd & _)]; [done|].
      by apply elem_of_nil in Hd.
    - simpl. rewrite IH, elem_of_app, list_elem_of_filter. split.
      + intros [[?|[_ ?]]|(d & Hd & Hl)].
        * by left.
        * right. exists d0. split; [left | done].
        * right. exists d. split; [by right | done].
      + intros [?|(d & [->|Hd]%elem_of_cons & Hl)].
        * left. by left.
        * destruct (decide (l ∈ seen)); [left; by left | left; by right].
        * right. by exists d. }
  rewrite Hgen. split; [|by right].
  intros [Hl|?]; [by apply elem_of_nil in Hl | done].
Qed.

(** The labels of a concatenation come in order of first appearance. *)
Example concat_label_order :
  labels <$> concat [mkDataFrame 1 [("x", [Num 1]); ("y", [Num 2])];
                     mkDataFrame 1 [("y", [Num 3]); ("z", [Num 4]);
                                    ("x", [Num 5])]] =
  Ok ["x"; "y"; "z"].
Proof. vm_compute. reflexivity. Qed.

(** [concat] keeps the Country cells of its arguments. *)
Lemma concat_country_filled (names : list string) (ds : list DataFrame) d :
  Forall (country_filled names) ds → concat ds = Ok d →
  country_filled names d.
Proof.
  intros Hds. unfold concat. destruct ds as [|d0 ds0]; [done|].
  assert (d0 ∈ d0 :: ds0) as Hd0in by left.
  remember (d0 :: ds0) as ds eqn:Eds. clear ds0 Eds.
  assert (country_filled names d0) as [Hd0 _].
  { rewrite Forall_forall in Hds. by apply Hds. }
  case_decide as Hsame; [|case_decide as Hnd]; intros [= <-].
  - split.
    { unfold labels. cbn [columns]. by rewrite labels_imap. }
    cbn [columns]. intros c [i Hi]%list_elem_of_lookup Hl.
    rewrite list_lookup_imap in Hi.
    destruct (columns d0 !! i) as [c0|] eqn:Hc0; [|done].
    injection Hi as <-. cbn [fst snd] in *. apply Forall_forall. intros x Hx.
    apply list_elem_of_join in Hx as (cells & Hx & Hcells).
    apply list_elem_of_fmap in Hcells as (di & -> & Hdi).
    rewrite Forall_forall in Hds, Hsame.
    destruct (Hds di Hdi) as [_ Hfill]. specialize (Hsame di Hdi).
    assert ((labels di) !! i = Some "Country") as Hli.
    { rewrite Hsame. unfold labels. rewrite list_lookup_fmap, Hc0.
      simpl. by rewrite Hl. }
    unfold labels in Hli. rewrite list_lookup_fmap in Hli.
    destruct (columns di !! i) as [ci|] eqn:Eci; [|done].
    injection Hli as Hli. rewrite list_lookup_fmap, Eci in Hx. simpl in Hx.
    assert (Forall (λ x, x ∈ Str <$> names) ci.2) as Hci.
    { apply Hfill; [|done]. by eapply list_elem_of_lookup_2. }
    rewrite Forall_forall in Hci. by apply Hci.
  - split.
    { unfold labels, union_labels. cbn [columns].
      rewrite <- list_fmap_compose.
      apply list_elem_of_fmap. exists "Country". split; [done|].
      apply elem_of_union_labels. by exists d0. }
    cbn [columns]. intros c (l & -> & Hl)%list_elem_of_fmap Hc.
    cbn [fst snd] in *. subst l. apply Forall_forall. intros x Hx.
    apply list_elem_of_join in Hx as (cells & Hx & Hcells).
    apply list_elem_of_fmap in Hcells as (di & -> & Hdi).
    rewrite Forall_forall in Hds. destruct (Hds di Hdi) as [Hin Hfill].
    unfold cells_for in Hx.
    destruct (filter _ (columns di)) as [|c cs] eqn:Ef.
    + exfalso. unfold labels in Hin.
      apply list_elem_of_fmap in Hin as (c & Hlc & Hc).
      by eapply (filter_nil_not_elem_of _ _ c Ef).
    + assert (c ∈ filter (λ c, c.1 = "Country") (columns di)) as Hc
        by (rewrite Ef; left).
      apply list_elem_of_filter in Hc as [Hlc Hc].
      specialize (Hfill c Hc Hlc). rewrite Forall_forall in Hfill.
      by apply Hfill.
Qed.

(** Whenever [load_data] returns a dataset, the dataset has a Country
    column and every cell of it is the name of one of the three countries:
    none is missing, also when a file brought a Country column of its
    own. *)
Theorem load_data_country_column fs (df_all : DataFrame) :
  (load_data data_dir fs).2 = Some df_all →
  "Country" ∈ labels df_all
  ∧ ∀ c, c ∈ columns df_all → c.1 = "Country" →
         Forall (λ x, x ∈ [Str "Benin"; Str "Sierra Leone"; Str "Togo"]) c.2.
Proof.
  unfold load_data.
  destruct (load_loop fs (file_paths data_dir) []) as [out r] eqn:Hrun.
  destruct r as [dfs|e]; [|done].
  assert (Forall (country_filled ["Benin"; "Sierra Leone"; "Togo"]) dfs)
    as Hdfs.
  { eapply load_loop_Forall; [|constructor|exact Hrun].
    intros cp df Hcp. apply setitem_country_filled.
    repeat (apply elem_of_cons in Hcp as [->|Hcp]; [set_solver|]).
    by apply elem_of_nil in Hcp. }
  destruct dfs as [|d0 ds]; [done|].
  destruct (concat (d0 :: ds)) as [d|e] eqn:Ec; [|done].
  intros [= <-]. by apply (concat_country_filled _ _ _ Hdfs Ec).
Qed.

End LoaderMore.

Lemma load_data_read_failure_witness :
  load_data "data" Samples.sierraleone_unreadable =
  ([Warning_not_found "data/benin_clean.csv";
    Error_loading_data (ParserError "data/sierraleone_clean.csv")],
   None).
Proof.
  apply (load_data_read_failure "data" Samples.sierraleone_unreadable
           [("Benin", "data/benin_clean.csv")]
           ("Sierra Leone", "data/sierraleone_clean.csv")
           [("Togo", "data/togo_clean.csv")]).
  - reflexivity.
  - intros cp e' [->|Hcp]%elem_of_cons; [done | by apply elem_of_nil in Hcp].
  - reflexivity.
Defined.

Lemma load_data_country_column_witness :
  ∃ df_all, (load_data "data" Samples.togo_only).2 = Some df_all
          ∧ "Country" ∈ labels df_all.
Proof.
  eexists. split; [reflexivity|].
  by destruct (load_data_country_column "data" Samples.togo_only _ eq_refl).
Defined.

(** ** Rows of one country and their summary *)

Section CountrySummary.

Variable where_frame : DataFrame → list (list bool) → result DataFrame.

Implicit Types (d df : DataFrame) (mask : list bool) (col : list cell).

(** With distinct labels [df[label]] is the one column of that name. *)
Lemma getitem_unique d (label : string) col :
  NoDup (labels d) → (label, col) ∈ columns d → getitem d label = Ok [col].
Proof.
  unfold getitem, labels. generalize (columns d). intros cols.
  induction cols as [|[k y] cols IH]; intros Hnd Hin.
  { by apply elem_of_nil in Hin. }
  simpl in Hnd. apply NoDup_cons in Hnd as [Hk Hnd].
  rewrite filter_cons. simpl.
  apply elem_of_cons in Hin as [[= <- <-]|Hin].
  - rewrite decide_True by done.
    rewrite (filter_none (λ c : string * list cell, c.1 = label)); [done|].
    intros c Hc Hl. apply Hk. rewrite <- Hl. by apply list_elem_of_fmap_2.
  - rewrite decide_False; [by apply IH|].
    intros ->. apply Hk. by apply (list_elem_of_fmap_2 fst) in Hin.
Qed.

Lemma rows_where_unique d (label : string) col (test : cell → bool) :
  NoDup (labels d) → (label, col) ∈ columns d →
  rows_where where_frame d label test = Ok (getitem_mask d (test <$> col)).
Proof.
  intros Hnd Hin. unfold rows_where. by rewrite (getitem_unique d label col).
Qed.

Lemma labels_getitem_mask d mask : labels (getitem_mask d mask) = labels d.
Proof.
  unfold labels, getitem_mask. cbn [columns].
  by rewrite <- list_fmap_compose.
Qed.

Lemma elem_of_take_rows {A} mask (xs : list A) (x : A) :
  x ∈ take_rows mask xs → x ∈ xs.
Proof.
  revert xs. induction mask as [|b mask IH]; intros [|y xs]; simpl; try done.
  { by intros ?%elem_of_nil. }
  destruct b.
  - intros [->|?]%elem_of_cons; [left | right; auto].
  - intros ?. right. auto.
Qed.

Lemma take_rows_none {A} mask (xs : list A) :
  Forall (λ b, b = false) mask → take_rows mask xs = [].
Proof.
  intros Hm. revert xs.
  induction Hm as [|b mask Hb _ IH]; intros [|y xs]; simpl; try done.
  rewrite Hb. apply IH.
Qed.

Lemma length_filter_fmap_true (test : cell → bool) col :
  length (filter (λ b, b = true) (test <$> col)) =
  length (filter (λ x, test x = true) col).
Proof.
  induction col as [|x col IH]; [done|].
  rewrite fmap_cons, !filter_cons. repeat case_decide; simpl; congruence.
Qed.

(** [calculate_metrics] returns on a column of numbers. *)
Lemma calculate_metrics_returns d (metric : string) col :
  (metric, col) ∈ columns d →
  (∀ c, (metric, c) ∈ columns d → numeric c) →
  ∃ m, calculate_metrics d metric = Ok m ∧ count m = nrows d.
Proof.
  intros Hx Hnum.
  destruct (getitem_present d metric col Hx) as (sel & Hsel & Hin).
  destruct (reduce_ok column_mean sel) as [v1 H1];
    [intros c Hc; apply column_mean_ok; auto|].
  destruct (reduce_ok column_median sel) as [v2 H2];
    [intros c Hc; apply column_median_ok; auto|].
  destruct (reduce_ok column_std sel) as [v3 H3];
    [intros c Hc; apply column_std_ok; auto|].
  unfold calculate_metrics. rewrite Hsel. simpl. rewrite H1, H2, H3. simpl.
  by eexists.
Qed.

(** The loop gives one entry, in order, for each listed metric that is a
    column, when [calculate_metrics] returns on each of these. *)
Lemma summary_metrics_ok d (ms : list string) (P : Metrics → Prop) :
  (∀ metric, metric ∈ ms → metric ∈ labels d →
     ∃ m, calculate_metrics d metric = Ok m ∧ P m) →
  ∃ l, summary_metrics d ms = Ok l
     ∧ l.*1 = filter (λ metric, metric ∈ labels d) ms
     ∧ Forall (λ e, P e.2) l.
Proof.
  induction ms as [|metric ms IH]; intros Hcalc; [by exists []|].
  destruct IH as (l & Hl & Hkeys & HP).
  { intros m Hm. apply Hcalc. by right. }
  simpl. rewrite filter_cons. case_decide as Hin.
  - destruct (Hcalc metric) as (m & Hm & HPm); [by left | done |].
    rewrite Hm. simpl. rewrite Hl. simpl. eexists. split; [done|].
    split; [by rewrite fmap_cons, Hkeys | by constructor].
  - by exists l.
Qed.

(** Without a Country column the summary fails with [KeyError]. *)
Theorem get_country_summary_no_country df (c : cell) :
  "Country" ∉ labels df →
  get_country_summary where_frame df c = Raise (KeyError ["Country"]).
Proof.
  intros Habs. unfold get_country_summary, rows_eq, rows_where.
  by rewrite (getitem_absent df "Country" Habs).
Qed.

(** On a well-formed table with distinct labels, a Country column and
    numbers in those of GHI, DNI and DHI that it has, the summary returns.
    Its record count is the number of rows whose Country equals the given
    one, its metrics are those of GHI, DNI and DHI that are columns, in
    that order, the absent ones being passed over without error, and the
    count of every metric equals the record count. *)
Theorem get_country_summary_counts df (c : cell) col :
  NoDup (labels df) →
  ("Country", col) ∈ columns df →
  (∀ metric x, metric ∈ solar_metrics → (metric, x) ∈ columns df → numeric x) →
  ∃ s, get_country_summary where_frame df c = Ok s
     ∧ country s = c
     ∧ records s = length (filter (λ x, cell_eqb x c = true) col)
     ∧ (metrics s).*1 = filter (λ metric, metric ∈ labels df) solar_metrics
     ∧ Forall (λ e, count e.2 = records s) (metrics s).
Proof.
  intros Hnd Hcol Hnum.
  set (mask := (λ x, cell_eqb x c) <$> col).
  set (cd := getitem_mask df mask).
  destruct (summary_metrics_ok cd solar_metrics (λ m, count m = nrows cd))
    as (l & Hl & Hkeys & Hcount).
  { intros metric Hm Hin. unfold labels in Hin.
    apply list_elem_of_fmap in Hin as ([k y] & -> & Hy).
    apply (calculate_metrics_returns cd _ y); [done|].
    intros x Hx. unfold cd, getitem_mask in Hx. cbn [columns] in Hx.
    apply list_elem_of_fmap in Hx as ([k' y'] & [= -> ->] & Hy').
    intros s Hs%elem_of_take_rows. by apply (Hnum k' y' Hm Hy' s). }
  exists (mkSummary c (nrows cd) l).
  split.
  { unfold get_country_summary, rows_eq.
    rewrite (rows_where_unique df "Country" col) by done.
    fold mask. fold cd. cbn [rbind]. by rewrite Hl. }
  cbn [country records metrics]. split_and!; try done.
  - unfold cd, getitem_mask, mask. cbn [nrows].
    apply length_filter_fmap_true.
  - rewrite Hkeys. unfold cd. by rewrite labels_getitem_mask.
Qed.

(** For a country that no row carries the summary still returns: zero
    records, and for each of GHI, DNI and DHI that is a column a count of
    zero with NaN for mean, median and standard deviation. *)
Theorem get_country_summary_unknown_country df (c : cell) col :
  NoDup (labels df) →
  ("Country", col) ∈ columns df →
  (∀ metric x, metric ∈ solar_metrics → (metric, x) ∈ columns df → numeric x) →
  Forall (λ x, cell_eqb x c = false) col →
  ∃ s, get_country_summary where_frame df c = Ok s
     ∧ records s = 0%nat
     ∧ (metrics s).*1 = filter (λ metric, metric ∈ labels df) solar_metrics
     ∧ Forall (λ e, e.2 = mkMetrics [Val NaN] [Val NaN] [Val NaN] 0)
              (metrics s).
Proof.
  intros Hnd Hcol _ Hnone.
  set (mask := (λ x, cell_eqb x c) <$> col).
  assert (Forall (λ b, b = false) mask) as Hmask.
  { unfold mask. apply Forall_fmap. by eapply Forall_impl. }
  set (cd := getitem_mask df mask).
  assert (nrows cd = 0%nat) as Hrows.
  { unfold cd, getitem_mask. cbn [nrows].
    rewrite filter_none; [done|]. intros b Hb ->.
    rewrite Forall_forall in Hmask. by specialize (Hmask _ Hb). }
  assert (NoDup (labels cd)) as Hndcd
    by (unfold cd; by rewrite labels_getitem_mask).
  destruct (summary_metrics_ok cd solar_metrics
              (λ m, m = mkMetrics [Val NaN] [Val NaN] [Val NaN] 0))
    as (l & Hl & Hkeys & Hall).
  { intros metric Hm Hin. unfold labels in Hin.
    apply list_elem_of_fmap in Hin as ([k y] & -> & Hy).
    assert (y = []) as ->.
    { unfold cd, getitem_mask in Hy. cbn [columns] in Hy.
      apply list_elem_of_fmap in Hy as ([k' y'] & [= -> ->] & Hy').
      by apply take_rows_none. }
    clearbody cd. eexists. split; [|done].
    unfold calculate_metrics. cbn [fst].
    rewrite (getitem_unique cd k [] Hndcd Hy). simpl. by rewrite Hrows. }
  exists (mkSummary c (nrows cd) l).
  split.
  { unfold get_country_summary, rows_eq.
    rewrite (rows_where_unique df "Country" col) by done.
    fold mask. fold cd. cbn [rbind]. by rewrite Hl. }
  cbn [country records metrics]. split_and!; try done.
  rewrite Hkeys. unfold cd. by rewrite labels_getitem_mask.
Qed.

End CountrySummary.

(** ** The cards of the ranking page *)

Section RankingCards.

Implicit Types (vals : list fval) (v a b : fval) (aggs : list Agg)
  (rs : list Ranked).

Lemma argmin_None vals :
  argmin vals = None → Forall (λ w, isnan w = true) vals.
Proof.
  induction vals as [|v vals IH]; [constructor|].
  simpl. destruct (argmin vals) as [[i m]|].
  - destruct (isnan v); [done|]. by destruct (fleb v m).
  - destruct (isnan v) eqn:Hv; [|done]. intros _. constructor; auto.
Qed.

(** [argmin] finds the first smallest entry that is not NaN. *)
Lemma argmin_spec vals (i : nat) m :
  argmin vals = Some (i, m) →
  vals !! i = Some m ∧ isnan m = false
  ∧ ∀ (j : nat) w, vals !! j = Some w → isnan w = false →
      fleb m w = true ∧ ((j < i)%nat → fltb m w = true).
Proof.
  revert i m. induction vals as [|v vals IH]; intros i m; [done|].
  simpl. destruct (argmin vals) as [[i' m']|] eqn:E.
  - destruct (IH i' m' eq_refl) as (Hlook & Hnan & Hmin).
    destruct (isnan v) eqn:Hv; [|destruct (fleb v m') eqn:Hle].
    + intros [= <- <-]. split_and!; [done..|].
      intros [|j] w Hw Hwn; simpl in Hw.
      * congruence.
      * destruct (Hmin j w Hw Hwn) as [H1 H2]. split; [done|].
        intros ?. apply H2. lia.
    + intros [= <- <-]. split_and!; [done..|].
      intros [|j] w Hw Hwn; simpl in Hw.
      * injection Hw as <-. split; [by apply fleb_refl | lia].
      * destruct (Hmin j w Hw Hwn) as [H1 _].
        split; [by eapply fleb_trans | lia].
    + intros [= <- <-]. split_and!; [done..|].
      apply fleb_false_fltb in Hle; [|done..].
      intros [|j] w Hw Hwn; simpl in Hw.
      * injection Hw as <-. split; [by apply fltb_fleb | done].
      * destruct (Hmin j w Hw Hwn) as [H1 H2]. split; [done|].
        intros ?. apply H2. lia.
  - apply argmin_None in E. destruct (isnan v) eqn:Hv; [done|].
    intros [= <- <-]. split_and!; [done..|].
    intros [|j] w Hw Hwn; simpl in Hw.
    + injection Hw as <-. split; [by apply fleb_refl | lia].
    + rewrite Forall_forall in E.
      apply list_elem_of_lookup_2 in Hw. specialize (E w Hw). congruence.
Qed.

Lemma idxmin_spec vals (i : nat) :
  idxmin vals = Ok i →
  ∃ m, vals !! i = Some m ∧ isnan m = false
     ∧ ∀ (j : nat) w, vals !! j = Some w → isnan w = false →
         fleb m w = true ∧ ((j < i)%nat → fltb m w = true).
Proof.
  unfold idxmin. destruct (argmin vals) as [[k m]|] eqn:E; [|done].
  intros [= <-]. exists m. by apply argmin_spec.
Qed.

Lemma idxmin_returns vals w :
  w ∈ vals → isnan w = false → ∃ i, idxmin vals = Ok i.
Proof.
  intros Hw Hn. unfold idxmin.
  destruct (argmin vals) as [[k m]|] eqn:E; [by exists k|].
  apply argmin_None in E. rewrite Forall_forall in E.
  specialize (E w Hw). congruence.
Qed.

(** An entry below all others is the one [idxmin] finds. *)
Lemma idxmin_unique vals (i : nat) v :
  vals !! i = Some v → isnan v = false →
  (∀ (j : nat) w, j ≠ i → vals !! j = Some w → isnan w = false →
                  fltb v w = true) →
  idxmin vals = Ok i.
Proof.
  intros Hv Hn Hlow.
  destruct (idxmin_returns vals v) as [k Hk];
    [by eapply list_elem_of_lookup_2 | done |].
  destruct (idxmin_spec vals k Hk) as (m & Hm & Hmn & Hmin).
  destruct (decide (k = i)) as [->|Hne]; [done|].
  destruct (Hmin i v Hv Hn) as [Hle _].
  destruct (fltb_not_fleb v m); [by apply (Hlow k) | done].
Qed.

(** [series_max] is the greatest entry that is not NaN. *)
Lemma series_max_spec vals :
  (series_max vals = NaN ∧ Forall (λ w, isnan w = true) vals)
  ∨ (isnan (series_max vals) = false ∧ series_max vals ∈ vals
     ∧ ∀ w, w ∈ vals → isnan w = false → fleb w (series_max vals) = true).
Proof.
  induction vals as [|v vals IH]; [left; by split|].
  simpl. destruct (isnan v) eqn:Hv.
  - destruct IH as [[-> Hall]|(Hn & Hin & Hmax)].
    + left. split; [done | by constructor].
    + right. split_and!; [done | by right |].
      intros w [->|Hw]%elem_of_cons Hwn; [congruence | auto].
  - right. destruct IH as [[-> Hall]|(Hn & Hin & Hmax)].
    + simpl. split_and!; [done | by left |].
      intros w [->|Hw]%elem_of_cons Hwn; [by apply fleb_refl|].
      rewrite Forall_forall in Hall. specialize (Hall w Hw). congruence.
    + rewrite Hn. destruct (fltb v (series_max vals)) eqn:Hlt.
      * split_and!; [done | by right |].
        intros w [->|Hw]%elem_of_cons Hwn; [by apply fltb_fleb | auto].
      * split_and!; [done | by left |].
        intros w [->|Hw]%elem_of_cons Hwn; [by apply fleb_refl|].
        apply fleb_trans with (series_max vals); [auto|].
        destruct (fleb (series_max vals) v) eqn:Hle; [done|].
        apply fleb_false_fltb in Hle; [congruence | done..].
Qed.

Lemma sum_list_strict {A} (f g : A → nat) (l : list A) (y : A) :
  (∀ z, (f z ≤ g z)%nat) → y ∈ l → (f y < g y)%nat →
  (sum_list (f <$> l) < sum_list (g <$> l))%nat.
Proof.
  intros Hfg Hy Hlt. induction l as [|z l IH]; [by apply elem_of_nil in Hy|].
  rewrite !fmap_cons. simpl.
  pose proof (sum_list_mono f g l Hfg).
  apply elem_of_cons in Hy as [->|Hy].
  - lia.
  - specialize (IH Hy). specialize (Hfg z). lia.
Qed.

(** A strictly greater entry of the series has a strictly smaller rank. *)
Lemma rank_desc_strict vals a b :
  a ∈ vals → fltb b a = true →
  ∃ p q, rank_desc vals a = Fin p ∧ rank_desc vals b = Fin q ∧ (p < q)%Q.
Proof.
  intros Ha Hba. destruct (fltb_not_nan _ _ Hba) as [Hb Han].
  unfold rank_desc. rewrite Han, Hb. do 2 eexists. do 2 (split; [done|]).
  rewrite !rank_weight.
  assert (sum_list (weight a <$> vals) < sum_list (weight b <$> vals))%nat.
  { apply sum_list_strict with a; [|done|].
    - intros z. by apply weight_antitone, fltb_fleb.
    - unfold weight, fgtb. rewrite fltb_irrefl, (feqb_refl a Han), Hba.
      destruct (feqb a b); simpl; lia. }
  unfold Qlt. simpl. lia.
Qed.

Lemma rank_desc_nan vals v : isnan (rank_desc vals v) = isnan v.
Proof. unfold rank_desc. by destruct (isnan v). Qed.

(** The row that [idxmin] of a column picks: its name, and what makes it
    the pick. *)
Lemma idxmin_name rs (f : Ranked → fval) (i : nat) :
  idxmin (f <$> rs) = Ok i →
  ∃ r, rs !! i = Some r ∧ name_at rs i = Ok (Country (row r))
     ∧ isnan (f r) = false
     ∧ ∀ (j : nat) r', rs !! j = Some r' → isnan (f r') = false →
         fleb (f r) (f r') = true ∧ ((j < i)%nat → fltb (f r) (f r') = true).
Proof.
  intros (m & Hm & Hn & Hmin)%idxmin_spec.
  rewrite list_lookup_fmap in Hm.
  destruct (rs !! i) as [r|] eqn:Hr; [|done]. injection Hm as <-.
  exists r. unfold name_at. rewrite Hr. split_and!; [done..|].
  intros j r' Hr' Hn'. apply (Hmin j (f r')); [|done].
  by rewrite list_lookup_fmap, Hr'.
Qed.

(** The recommended country has the least overall score among the groups
    that have one, and it is the first group with that score. *)
Theorem show_regional_rankings_recommendation aggs (cards : RankingCards) :
  show_regional_rankings aggs = Ok cards →
  ∃ (i : nat) r,
    rankings aggs !! i = Some r
    ∧ Country (row r) = best_country cards
    ∧ isnan (OverallScore r) = false
    ∧ ∀ (j : nat) r', rankings aggs !! j = Some r' →
        isnan (OverallScore r') = false →
        fleb (OverallScore r) (OverallScore r') = true
        ∧ ((j < i)%nat → fltb (OverallScore r) (OverallScore r') = true).
Proof.
  unfold show_regional_rankings. cbv zeta.
  destruct (idxmin (PotentialRank <$> rankings aggs)) as [i|]; [|done].
  cbn [rbind]. destruct (name_at (rankings aggs) i) as [n1|]; [|done].
  cbn [rbind].
  destruct (idxmin (StabilityRank <$> rankings aggs)) as [j|]; [|done].
  cbn [rbind]. destruct (name_at (rankings aggs) j) as [n2|]; [|done].
  cbn [rbind].
  destruct (idxmin (OverallScore <$> rankings aggs)) as [k|] eqn:Hk; [|done].
  cbn [rbind].
  destruct (idxmin_name _ _ _ Hk) as (r & Hr & Hname & Hn & Hmin).
  rewrite Hname. cbn [rbind]. intros [= <-]. by exists k, r.
Qed.

Lemma fltb_Fin x y : fltb (Fin x) (Fin y) = true ↔ (x < y)%Q.
Proof. apply Qltb_lt. Qed.

(** The row with the least rank holds the greatest value. *)
Lemma idxmin_rank_max vals (i : nat) a :
  idxmin (rank_desc vals <$> vals) = Ok i → vals !! i = Some a →
  feqb a (series_max vals) = true.
Proof.
  intros (m & Hm & Hmn & Hmin)%idxmin_spec Ha.
  rewrite list_lookup_fmap, Ha in Hm. injection Hm as <-.
  rewrite rank_desc_nan in Hmn.
  assert (a ∈ vals) as Hin by by eapply list_elem_of_lookup_2.
  destruct (series_max_spec vals) as [[_ Hall]|(Hn & HM & Hmax)].
  { rewrite Forall_forall in Hall. specialize (Hall a Hin). congruence. }
  apply fleb_antisym; [by apply Hmax|].
  destruct (fleb (series_max vals) a) eqn:Hle; [done|].
  apply fleb_false_fltb in Hle; [|done..].
  destruct (rank_desc_strict vals _ _ HM Hle) as (p & q & Hp & Hq & Hpq).
  apply list_elem_of_lookup in HM as [k Hk].
  destruct (Hmin k (rank_desc vals (series_max vals))) as [Hle' _].
  { by rewrite list_lookup_fmap, Hk. }
  { by rewrite rank_desc_nan. }
  rewrite Hp, Hq in Hle'. apply fleb_Fin in Hle'. lra.
Qed.

Lemma rankings_potential aggs :
  PotentialRank <$> rankings aggs =
  rank_desc (Average <$> (round_row <$> aggs))
    <$> (Average <$> (round_row <$> aggs)).
Proof. unfold rankings. by rewrite <- !list_fmap_compose. Qed.

Lemma rankings_stability aggs :
  StabilityRank <$> rankings aggs =
  rank_desc (Stability <$> (round_row <$> aggs))
    <$> (Stability <$> (round_row <$> aggs)).
Proof. unfold rankings. by rewrite <- !list_fmap_compose. Qed.

Lemma rankings_average aggs :
  (λ r, Average (row r)) <$> rankings aggs = Average <$> (round_row <$> aggs).
Proof. unfold rankings. by rewrite <- !list_fmap_compose. Qed.

Lemma rankings_stability_values aggs :
  (λ r, Stability (row r)) <$> rankings aggs =
  Stability <$> (round_row <$> aggs).
Proof. unfold rankings. by rewrite <- !list_fmap_compose. Qed.

(** The two cards agree with their figures: the country shown as best
    solar potential holds the maximal average that is shown beside it, and
    the country shown as most stable holds the maximal stability shown
    beside it (all after rounding to two decimals). *)
Theorem show_regional_rankings_cards_agree aggs (cards : RankingCards) :
  show_regional_rankings aggs = Ok cards →
  ∃ rp rst,
    rp ∈ rankings aggs ∧ rst ∈ rankings aggs
    ∧ Country (row rp) = best_potential cards
    ∧ feqb (Average (row rp)) (best_average cards) = true
    ∧ Country (row rst) = most_stable cards
    ∧ feqb (Stability (row rst)) (best_stability cards) = true.
Proof.
  unfold show_regional_rankings. cbv zeta.
  destruct (idxmin (PotentialRank <$> rankings aggs)) as [i|] eqn:Hi; [|done].
  cbn [rbind].
  destruct (idxmin_name _ _ _ Hi) as (rp & Hrp & Hnp & _). rewrite Hnp.
  cbn [rbind].
  destruct (idxmin (StabilityRank <$> rankings aggs)) as [j|] eqn:Hj; [|done].
  cbn [rbind].
  destruct (idxmin_name _ _ _ Hj) as (rst & Hrs & Hns & _). rewrite Hns.
  cbn [rbind].
  destruct (idxmin (OverallScore <$> rankings aggs)) as [k|]; [|done].
  cbn [rbind]. destruct (name_at (rankings aggs) k) as [n3|]; [|done].
  cbn [rbind]. intros [= <-]. cbn.
  exists rp, rst. split_and!; try done; try by eapply list_elem_of_lookup_2.
  - rewrite rankings_average. rewrite rankings_potential in Hi.
    apply (idxmin_rank_max _ i); [done|].
    rewrite <- rankings_average, list_lookup_fmap. by rewrite Hrp.
  - rewrite rankings_stability_values. rewrite rankings_stability in Hj.
    apply (idxmin_rank_max _ j); [done|].
    rewrite <- rankings_stability_values, list_lookup_fmap. by rewrite Hrs.
Qed.

Lemma score_not_nan p s :
  isnan (fdiv_pos (fadd p s) 2) = false → isnan p = false ∧ isnan s = false.
Proof. by destruct p, s. Qed.

Lemma rank_desc_Fin vals v :
  isnan v = false → ∃ p, rank_desc vals v = Fin p.
Proof. intros Hv. unfold rank_desc. rewrite Hv. by eexists. Qed.

(** The three lookups of a best row all succeed exactly when some group
    has both an average and a stability; otherwise one of them raises.  A
    group with an average only and another with a stability only do not
    do. *)
Theorem show_regional_rankings_returns aggs :
  (∃ cards, show_regional_rankings aggs = Ok cards)
  ↔ ∃ g, g ∈ aggs ∧ isnan (Average g) = false ∧ isnan (Stability g) = false.
Proof.
  split.
  - intros [cards Hshow]. revert Hshow.
    unfold show_regional_rankings. cbv zeta.
    destruct (idxmin (PotentialRank <$> rankings aggs)) as [i|]; [|done].
    cbn [rbind]. destruct (name_at (rankings aggs) i) as [n1|]; [|done].
    cbn [rbind].
    destruct (idxmin (StabilityRank <$> rankings aggs)) as [j|]; [|done].
    cbn [rbind]. destruct (name_at (rankings aggs) j) as [n2|]; [|done].
    cbn [rbind].
    destruct (idxmin (OverallScore <$> rankings aggs)) as [k|] eqn:Hk;
      [|done].
    intros _. destruct (idxmin_name _ _ _ Hk) as (r & Hr & _ & Hn & _).
    destruct (aggs !! k) as [g|] eqn:Hg.
    + exists g. split; [by eapply list_elem_of_lookup_2|].
      rewrite (rankings_lookup aggs k g Hg) in Hr. cbv zeta in Hr.
      injection Hr as <-. cbn [OverallScore] in Hn.
      apply score_not_nan in Hn as [Hp Hs].
      rewrite rank_desc_nan in Hp, Hs. cbn [round_row Average Stability] in *.
      by rewrite !isnan_round2 in *.
    + unfold rankings in Hr. by rewrite !list_lookup_fmap, Hg in Hr.
  - intros (g & [i Hg]%list_elem_of_lookup & Ha & Hs).
    pose proof (rankings_lookup aggs i g Hg) as Hr. cbv zeta in Hr.
    set (r := mkRanked _ _ _ _) in Hr.
    assert (r ∈ rankings aggs) as Hin by by eapply list_elem_of_lookup_2.
    destruct (rank_desc_Fin (Average <$> (round_row <$> aggs))
                (round2 (Average g))) as [p Hp];
      [by rewrite isnan_round2|].
    destruct (rank_desc_Fin (Stability <$> (round_row <$> aggs))
                (round2 (Stability g))) as [q Hq];
      [by rewrite isnan_round2|].
    assert (isnan (PotentialRank r) = false) as H1
      by (unfold r; cbn; by rewrite Hp).
    assert (isnan (StabilityRank r) = false) as H2
      by (unfold r; cbn; by rewrite Hq).
    assert (isnan (OverallScore r) = false) as H3
      by (unfold r; cbn; by rewrite Hp, Hq).
    destruct (idxmin_returns (PotentialRank <$> rankings aggs)
                (PotentialRank r)) as [i1 Hi1];
      [by apply list_elem_of_fmap_2 | done |].
    destruct (idxmin_returns (StabilityRank <$> rankings aggs)
                (StabilityRank r)) as [i2 Hi2];
      [by apply list_elem_of_fmap_2 | done |].
    destruct (idxmin_returns (OverallScore <$> rankings aggs)
                (OverallScore r)) as [i3 Hi3];
      [by apply list_elem_of_fmap_2 | done |].
    destruct (idxmin_name _ _ _ Hi1) as (r1 & _ & Hn1 & _).
    destruct (idxmin_name _ _ _ Hi2) as (r2 & _ & Hn2 & _).
    destruct (idxmin_name _ _ _ Hi3) as (r3 & _ & Hn3 & _).
    eexists. unfold show_regional_rankings. cbv zeta.
    rewrite Hi1. cbn [rbind]. rewrite Hn1. cbn [rbind].
    rewrite Hi2. cbn [rbind]. rewrite Hn2. cbn [rbind].
    rewrite Hi3. cbn [rbind]. rewrite Hn3. cbn [rbind]. done.
Qed.

(** A group above another on both rounded values is strictly ahead of it
    on both ranks and on the score. *)
Lemma rankings_strict aggs (i j : nat) (g g' : Agg) (r r' : Ranked) :
  aggs !! i = Some g → aggs !! j = Some g' →
  rankings aggs !! i = Some r → rankings aggs !! j = Some r' →
  fltb (round2 (Average g')) (round2 (Average g)) = true →
  fltb (round2 (Stability g')) (round2 (Stability g)) = true →
  fltb (PotentialRank r) (PotentialRank r') = true
  ∧ fltb (StabilityRank r) (StabilityRank r') = true
  ∧ fltb (OverallScore r) (OverallScore r') = true.
Proof.
  intros Hg Hg' Hr Hr' Ha Hs.
  rewrite (rankings_lookup aggs i g Hg) in Hr.
  rewrite (rankings_lookup aggs j g' Hg') in Hr'. cbv zeta in Hr, Hr'.
  injection Hr as <-. injection Hr' as <-.
  cbn [PotentialRank StabilityRank OverallScore Average Stability round_row].
  assert (round2 (Average g) ∈ Average <$> (round_row <$> aggs)) as Hain
    by (apply list_elem_of_lookup; exists i; by rewrite !list_lookup_fmap, Hg).
  assert (round2 (Stability g) ∈ Stability <$> (round_row <$> aggs)) as Hsin
    by (apply list_elem_of_lookup; exists i; by rewrite !list_lookup_fmap, Hg).
  destruct (rank_desc_strict _ _ _ Hain Ha) as (p & p' & -> & -> & Hp).
  destruct (rank_desc_strict _ _ _ Hsin Hs) as (q & q' & -> & -> & Hq).
  cbn [fadd fdiv_pos]. rewrite !fltb_Fin. split_and!; [done..|].
  unfold Qdiv. change (/ (2 # 1))%Q with (1 # 2)%Q. lra.
Qed.

(** A group whose average and whose stability, rounded to two decimals,
    are strictly above those of every other group is named on all three
    cards: best solar potential, most stable, and the recommendation. *)
Theorem show_regional_rankings_dominant aggs (i : nat) (g : Agg) :
  aggs !! i = Some g →
  isnan (Average g) = false → isnan (Stability g) = false →
  (∀ (j : nat) g', j ≠ i → aggs !! j = Some g' →
     fltb (round2 (Average g')) (round2 (Average g)) = true
     ∧ fltb (round2 (Stability g')) (round2 (Stability g)) = true) →
  ∃ cards, show_regional_rankings aggs = Ok cards
         ∧ best_potential cards = Country g
         ∧ most_stable cards = Country g
         ∧ best_country cards = Country g.
Proof.
  intros Hg Ha Hs Hdom.
  pose proof (rankings_lookup aggs i g Hg) as Hr. cbv zeta in Hr.
  set (r := mkRanked _ _ _ _) in Hr.
  destruct (rank_desc_Fin (Average <$> (round_row <$> aggs))
              (round2 (Average g))) as [p Hp];
    [by rewrite isnan_round2|].
  destruct (rank_desc_Fin (Stability <$> (round_row <$> aggs))
              (round2 (Stability g))) as [q Hq];
    [by rewrite isnan_round2|].
  assert (∀ f : Ranked → fval,
            isnan (f r) = false →
            (∀ (j : nat) r', j ≠ i → rankings aggs !! j = Some r' →
                             fltb (f r) (f r') = true) →
            idxmin (f <$> rankings aggs) = Ok i) as Hpick.
  { intros f Hn Hlow. apply idxmin_unique with (f r); [|done|].
    - by rewrite list_lookup_fmap, Hr.
    - intros j w Hj Hw _. rewrite list_lookup_fmap in Hw.
      destruct (rankings aggs !! j) as [r'|] eqn:Hr'; [|done].
      injection Hw as <-. by apply (Hlow j). }
  assert (∀ (j : nat) r', j ≠ i → rankings aggs !! j = Some r' →
            fltb (PotentialRank r) (PotentialRank r') = true
            ∧ fltb (StabilityRank r) (StabilityRank r') = true
            ∧ fltb (OverallScore r) (OverallScore r') = true) as Hstrict.
  { intros j r' Hj Hr'.
    destruct (aggs !! j) as [g'|] eqn:Hg'.
    - destruct (Hdom j g' Hj Hg') as [H1 H2].
      by apply (rankings_strict aggs i j g g').
    - unfold rankings in Hr'. by rewrite !list_lookup_fmap, Hg' in Hr'. }
  assert (name_at (rankings aggs) i = Ok (Country g)) as Hname
    by (unfold name_at; by rewrite Hr).
  eexists. unfold show_regional_rankings. cbv zeta.
  rewrite (Hpick PotentialRank), (Hpick StabilityRank), (Hpick OverallScore).
  - cbn [rbind]. rewrite Hname. cbn [rbind]. by split_and!.
  - unfold r. cbn. by rewrite Hp, Hq.
  - intros j r' Hj Hr'. by apply (Hstrict j r').
  - unfold r. cbn. by rewrite Hq.
  - intros j r' Hj Hr'. by apply (Hstrict j r').
  - unfold r. cbn. by rewrite Hp.
  - intros j r' Hj Hr'. by apply (Hstrict j r').
Qed.

Lemma show_regional_rankings_recommendation_witness :
  ∃ cards, show_regional_rankings Samples.groups_xy = Ok cards
    ∧ ∃ (i : nat) r, rankings Samples.groups_xy !! i = Some r
                   ∧ Country (row r) = best_country cards.
Proof.
  destruct (show_regional_rankings Samples.groups_xy) as [cards|e] eqn:E;
    [|vm_compute in E; discriminate E].
  exists cards. split; [reflexivity|].
  destruct (show_regional_rankings_recommendation Samples.groups_xy cards E)
    as (i & r & Hr & Hname & _).
  exists i, r. split; [exact Hr | exact Hname].
Defined.

Lemma show_regional_rankings_cards_agree_witness :
  ∃ cards, show_regional_rankings Samples.groups_xy = Ok cards
    ∧ ∃ rp, rp ∈ rankings Samples.groups_xy
          ∧ Country (row rp) = best_potential cards
          ∧ feqb (Average (row rp)) (best_average cards) = true.
Proof.
  destruct (show_regional_rankings Samples.groups_xy) as [cards|e] eqn:E;
    [|vm_compute in E; discriminate E].
  exists cards. split; [reflexivity|].
  destruct (show_regional_rankings_cards_agree Samples.groups_xy cards E)
    as (rp & _ & Hin & _ & Hname & Havg & _).
  exists rp. split; [exact Hin|]. split; [exact Hname | exact Havg].
Defined.

(** The rounding is the binary64 one: the float 0.015 times 100 is the
    float 1.5, which rounds to 2, so a group at 0.015 ties with a group at
    0.02, both get PotentialRank 1.5, and the first of them is named. *)
Example rounding_makes_ties :
  round2 (Fin (Samples.literal (15 # 1000))) = Fin (Samples.literal (2 # 100))
  ∧ PotentialRank <$> rankings Samples.groups_rounded =
    [Fin (3 # 2); Fin (3 # 2)]
  ∧ best_potential <$> show_regional_rankings Samples.groups_rounded = Ok "H".
Proof. split_and!; vm_compute; reflexivity. Qed.

Lemma show_regional_rankings_dominant_witness :
  ∃ cards, show_regional_rankings Samples.groups_ab = Ok cards
         ∧ best_potential cards = "A"
         ∧ most_stable cards = "A"
         ∧ best_country cards = "A".
Proof.
  apply (show_regional_rankings_dominant Samples.groups_ab 0
           (mkAgg "A" (Fin 20) (Fin 19) (Fin 2) 4));
    [reflexivity | reflexivity | reflexivity |].
  intros [|[|j]] g' Hj Hg'; [done | | done].
  injection Hg' as <-. split; vm_compute; reflexivity.
Defined.

End RankingCards.

(** ** Units, the comparison page and the dispatcher *)

Section Pages.

(** A metric has a unit exactly when it is one of the six known names;
    every other name gets the empty string.  So every metric that the
    select boxes of the pages offer has a unit. *)
Theorem get_metric_unit_known (metric : string) :
  get_metric_unit metric ≠ ""
  ↔ metric ∈ ["GHI"; "DNI"; "DHI"; "Tamb"; "WS"; "RH"].
Proof.
  split.
  - intros Hunit.
    destruct (decide (metric ∈ ["GHI"; "DNI"; "DHI"; "Tamb"; "WS"; "RH"]))
      as [|Hout]; [done|].
    destruct Hunit. unfold get_metric_unit, units.
    by rewrite not_elem_of_list_to_map_1.
  - intros Hin.
    repeat (apply elem_of_cons in Hin as [->|Hin]; [by vm_compute|]).
    by apply elem_of_nil in Hin.
Qed.

Variable where_frame : DataFrame → list (list bool) → result DataFrame.
Variable Figure : Type.
Variable create_comparison_plot : DataFrame → string → string → result Figure.

Implicit Types (d df_all : DataFrame) (col : list cell) (c : cell)
  (selected : list cell).

Lemma cell_eqb_isin x c selected :
  c ∈ selected → cell_eqb x c = true → cell_isin x selected = true.
Proof.
  intros Hc Heq. unfold cell_isin. apply existsb_exists.
  exists c. split; [by apply list_elem_of_In|].
  by destruct x, c.
Qed.

Lemma take_rows_nil_r {A} (mask : list bool) : take_rows mask (@nil A) = [].
Proof. by destruct mask. Qed.

(** Rows taken by a test, out of the rows taken by a weaker test. *)
Lemma take_rows_twice {A} (t1 t2 : cell → bool) col (ys : list A) :
  (∀ x, t2 x = true → t1 x = true) →
  take_rows (t2 <$> take_rows (t1 <$> col) col) (take_rows (t1 <$> col) ys)
  = take_rows (t2 <$> col) ys.
Proof.
  intros Himp. revert ys.
  induction col as [|x col IH]; intros [|y ys]; try done.
  { by rewrite !take_rows_nil_r. }
  rewrite !fmap_cons. simpl.
  destruct (t1 x) eqn:H1; simpl.
  - destruct (t2 x); by rewrite IH.
  - destruct (t2 x) eqn:H2; [|apply IH].
    apply Himp in H2. congruence.
Qed.

Lemma count_rows_twice (t1 t2 : cell → bool) col :
  (∀ x, t2 x = true → t1 x = true) →
  length (filter (λ b, b = true) (t2 <$> take_rows (t1 <$> col) col))
  = length (filter (λ b, b = true) (t2 <$> col)).
Proof.
  intros Himp. induction col as [|x col IH]; [done|].
  rewrite !fmap_cons. cbn [take_rows].
  destruct (t1 x) eqn:H1.
  - rewrite !fmap_cons, !filter_cons. case_decide; simpl; by rewrite IH.
  - rewrite filter_cons, IH. case_decide as H2; [|done].
    apply Himp in H2. congruence.
Qed.

Lemma getitem_mask_twice d (t1 t2 : cell → bool) col :
  (∀ x, t2 x = true → t1 x = true) →
  getitem_mask (getitem_mask d (t1 <$> col))
               (t2 <$> take_rows (t1 <$> col) col)
  = getitem_mask d (t2 <$> col).
Proof.
  intros Himp. unfold getitem_mask. cbn [columns]. f_equal.
  - by apply count_rows_twice.
  - rewrite <- list_fmap_compose. apply list_fmap_ext.
    intros i [l y] _. simpl. f_equal. by apply take_rows_twice.
Qed.

(** The rows of a selected country are the same in the selection as in the
    whole dataset. *)
Lemma rows_eq_after_isin df_all col selected c d :
  NoDup (labels df_all) → ("Country", col) ∈ columns df_all →
  rows_isin where_frame df_all "Country" selected = Ok d →
  c ∈ selected →
  rows_eq where_frame d "Country" c =
  Ok (getitem_mask df_all ((λ x, cell_eqb x c) <$> col)).
Proof.
  intros Hnd Hcol Hd Hc. unfold rows_isin in Hd.
  rewrite (rows_where_unique where_frame df_all "Country" col) in Hd by done.
  injection Hd as <-. unfold rows_eq.
  rewrite (rows_where_unique where_frame _ "Country"
             (take_rows ((λ x, cell_isin x selected) <$> col) col)).
  - f_equal. apply (getitem_mask_twice df_all (λ x, cell_isin x selected)).
    intros x. by apply cell_eqb_isin.
  - by rewrite labels_getitem_mask.
  - unfold getitem_mask. cbn [columns].
    by apply (list_elem_of_fmap_2
                (λ c0 : string * list cell, (c0.1, take_rows _ c0.2))
                _ ("Country", col)).
Qed.

Lemma country_cards_after_isin df_all col selected d metric
    (some : list cell) :
  NoDup (labels df_all) → ("Country", col) ∈ columns df_all →
  rows_isin where_frame df_all "Country" selected = Ok d →
  (∀ c, c ∈ some → c ∈ selected) →
  country_cards where_frame d metric some =
  country_cards where_frame df_all metric some.
Proof.
  intros Hnd Hcol Hd. induction some as [|c some IH]; intros Hsub; [done|].
  simpl. rewrite IH by (intros c' Hc'; apply Hsub; by right).
  unfold country_card.
  rewrite (rows_eq_after_isin df_all col selected c d) by
    (try done; apply Hsub; by left).
  unfold rows_eq.
  by rewrite (rows_where_unique where_frame df_all "Country" col).
Qed.

Lemma country_cards_records df_all col metric selected cards :
  NoDup (labels df_all) → ("Country", col) ∈ columns df_all →
  country_cards where_frame df_all metric selected = Ok cards →
  Forall2 (λ c card,
             card_country card = c
             ∧ card_records card =
                 length (filter (λ x, cell_eqb x c = true) col))
          selected cards.
Proof.
  intros Hnd Hcol. revert cards.
  induction selected as [|c selected IH]; intros cards.
  { intros [= <-]. constructor. }
  simpl. unfold country_card at 1. unfold rows_eq.
  rewrite (rows_where_unique where_frame df_all "Country" col) by done.
  cbn [rbind].
  set (cd := getitem_mask df_all _).
  destruct (getitem cd metric) as [sel|]; [|done]. cbn [rbind].
  destruct (reduce column_mean sel); [|done]. cbn [rbind].
  destruct (reduce column_median sel); [|done]. cbn [rbind].
  destruct (reduce column_std sel); [|done]. cbn [rbind].
  destruct (country_cards where_frame df_all metric selected) as [rest|];
    [|done].
  cbn [rbind]. intros [= <-]. constructor; [|by apply IH].
  cbn. split; [done|]. apply length_filter_fmap_true.
Qed.

(** On a dataset with distinct labels and a Country column, the cards of
    the comparison page are those one gets from the whole dataset: taking
    the selected countries first changes no card.  Each card is for its
    selected country, in order, and its record count is the number of rows
    of that country in the whole dataset. *)
Theorem show_country_comparison_cards df_all col (metric plot_type : string)
    selected (fig : Figure) (cards : list CountryCard) :
  NoDup (labels df_all) → ("Country", col) ∈ columns df_all →
  show_country_comparison where_frame Figure create_comparison_plot
    df_all metric plot_type selected = Ok (Comparison Figure fig cards) →
  country_cards where_frame df_all metric selected = Ok cards
  ∧ Forall2 (λ c card,
               card_country card = c
               ∧ card_records card =
                   length (filter (λ x, cell_eqb x c = true) col))
            selected cards.
Proof.
  intros Hnd Hcol Hshow.
  assert (country_cards where_frame df_all metric selected = Ok cards)
    as Hcards; [|split; [done | by eapply country_cards_records]].
  revert Hshow. unfold show_country_comparison.
  destruct selected as [|c0 sel0] eqn:Esel; [done|]. rewrite <- Esel.
  destruct (rows_isin where_frame df_all "Country" selected) as [d|] eqn:Hd;
    [|done].
  cbn [rbind].
  destruct (create_comparison_plot d metric plot_type); [|done].
  cbn [rbind].
  rewrite (country_cards_after_isin df_all col selected d metric selected)
    by done.
  destruct (country_cards where_frame df_all metric selected); [|done].
  cbn [rbind]. by intros [= _ <-].
Qed.

Lemma calls_app (t1 t2 : list ui) : calls (t1 ++ t2) = calls t1 ++ calls t2.
Proof. apply omap_app. Qed.

Lemma calls_start (out : list line) :
  calls ([Header; Subtitle; SidebarTitle; ModeSelect] ++ (Printed <$> out)) = [].
Proof.
  rewrite calls_app. simpl.
  induction out as [|l out IH]; [done | exact IH].
Qed.

Lemma call_view_calls (show : page → DataFrame → result unit)
    (out : list line) (p : page) (d : DataFrame) :
  let run := call_view show
               ([Header; Subtitle; SidebarTitle; ModeSelect] ++ (Printed <$> out))
               p d in
  calls run.1 = [(p, d)]
  ∧ run.2 = show p d
  ∧ (Footer ∈ run.1 ↔ show p d = Ok ()).
Proof.
  cbv zeta. unfold call_view.
  assert (Footer ∉ [Header; Subtitle; SidebarTitle; ModeSelect]
                     ++ (Printed <$> out)) as Hnofoot.
  { intros [He|He]%elem_of_app.
    - repeat (apply elem_of_cons in He as [He|He]; [done|]).
      by apply elem_of_nil in He.
    - by apply list_elem_of_fmap in He as (l & ? & _). }
  destruct (show p d) as [[]|e]; cbn [fst snd].
  - split_and!; [|done|].
    + by rewrite calls_app, calls_start.
    + split; [done|]. intros _. apply elem_of_app. right. right. left.
  - split_and!; [|done|].
    + by rewrite calls_app, calls_start.
    + split; [|done]. intros [He|He]%elem_of_app; [done|].
      apply elem_of_cons in He as [He|He]; [done | by apply elem_of_nil in He].
Qed.

(** [main] calls exactly one view when [load_data] returned a dataset and
    the selection is the title of a view: that view, once, on that dataset;
    it then returns what the view returned, and shows the footer unless the
    view raised.  With a selection that is no title it calls no view.
    When [load_data] returns [None] it shows the error, calls no view,
    leaves the footer out and returns. *)
Theorem main_view_calls (show : page → DataFrame → result unit)
    (data_dir : string) (fs : string → file) (app_mode : string) :
  (∀ d, (load_data data_dir fs).2 = Some d →
     (∀ p, title p = app_mode →
        calls (main show data_dir fs app_mode).1 = [(p, d)]
        ∧ (main show data_dir fs app_mode).2 = show p d
        ∧ (Footer ∈ (main show data_dir fs app_mode).1 ↔ show p d = Ok ()))
     ∧ ((∀ p, title p ≠ app_mode) →
          calls (main show data_dir fs app_mode).1 = []
          ∧ (main show data_dir fs app_mode).2 = Ok ()))
  ∧ ((load_data data_dir fs).2 = None →
       (main show data_dir fs app_mode).2 = Ok ()
       ∧ last ((main show data_dir fs app_mode).1) = Some ErrorNoData
       ∧ (Footer ∉ (main show data_dir fs app_mode).1)
       ∧ calls (main show data_dir fs app_mode).1 = []).
Proof.
  unfold main. destruct (load_data data_dir fs) as [out df] eqn:Hload.
  cbn [snd]. split.
  - intros d ->. split.
    + intros p <-. destruct p; cbn [title]; repeat case_decide; try done;
        apply call_view_calls.
    + intros Hno.
      pose proof (Hno CountryComparison). pose proof (Hno TimeSeriesAnalysis).
      pose proof (Hno WeatherCorrelations). pose proof (Hno RegionalRankings).
      repeat case_decide; try done. cbn [fst snd]. split; [|done].
      by rewrite calls_app, calls_start.
  - intros ->. cbn [fst snd]. split_and!; [done | apply last_snoc | |].
    + intros [He|He]%elem_of_app.
      * apply elem_of_app in He as [He|He].
        -- repeat (apply elem_of_cons in He as [He|He]; [done|]).
           by apply elem_of_nil in He.
        -- by apply list_elem_of_fmap in He as (l & ? & _).
      * apply elem_of_cons in He as [He|He];
          [done | by apply elem_of_nil in He].
    + by rewrite calls_app, calls_start.
Qed.

Lemma main_view_calls_witness :
  calls (main (λ _ _, Ok ()) "data" Samples.togo_only
              "🏆 Regional Rankings").1 =
  [(RegionalRankings,
    setitem_scalar Samples.scenario "Country" (Str "Togo"))].
Proof.
  destruct (main_view_calls (λ _ _, Ok ()) "data" Samples.togo_only
              "🏆 Regional Rankings") as [Hsome _].
  destruct (Hsome (setitem_scalar Samples.scenario "Country" (Str "Togo")))
    as [Hcall _]; [vm_compute; reflexivity|].
  destruct (Hcall RegionalRankings eq_refl) as [Hcalls _]. exact Hcalls.
Defined.

End Pages.

(** ** Instances *)

Ltac no_such_elem H :=
  repeat (apply elem_of_cons in H as [H|H]; [discriminate|]);
  by apply elem_of_nil in H.

Lemma get_country_summary_no_country_witness :
  get_country_summary Samples.no_where Samples.scenario (Str "Benin") =
  Raise (KeyError ["Country"]).
Proof.
  apply get_country_summary_no_country.
  apply (bool_decide_unpack _). vm_compute. exact I.
Defined.

Lemma get_country_summary_counts_witness :
  ∃ s, get_country_summary Samples.no_where Samples.dataset (Str "Benin") = Ok s
     ∧ records s = 2%nat
     ∧ (metrics s).*1 = ["GHI"].
Proof.
  destruct (get_country_summary_counts Samples.no_where Samples.dataset
              (Str "Benin") [Str "Benin"; Str "Benin"; Str "Togo"])
    as (s & Hs & _ & Hrec & Hkeys & _).
  - apply (bool_decide_unpack _). vm_compute. exact I.
  - right. right. left.
  - intros metric x Hm Hx t Ht.
    apply elem_of_cons in Hx as [[= -> ->]|Hx]; [no_such_elem Ht|].
    apply elem_of_cons in Hx as [[= -> ->]|Hx]; [no_such_elem Ht|].
    apply elem_of_cons in Hx as [[= -> ->]|Hx]; [no_such_elem Hm|].
    by apply elem_of_nil in Hx.
  - exists s. split; [exact Hs|]. split; [exact Hrec | exact Hkeys].
Defined.

Lemma get_country_summary_unknown_country_witness :
  ∃ s, get_country_summary Samples.no_where Samples.dataset (Str "Ghana") = Ok s
     ∧ records s = 0%nat.
Proof.
  destruct (get_country_summary_unknown_country Samples.no_where
              Samples.dataset (Str "Ghana")
              [Str "Benin"; Str "Benin"; Str "Togo"])
    as (s & Hs & Hrec & _).
  - apply (bool_decide_unpack _). vm_compute. exact I.
  - right. right. left.
  - intros metric x Hm Hx t Ht.
    apply elem_of_cons in Hx as [[= -> ->]|Hx]; [no_such_elem Ht|].
    apply elem_of_cons in Hx as [[= -> ->]|Hx]; [no_such_elem Ht|].
    apply elem_of_cons in Hx as [[= -> ->]|Hx]; [no_such_elem Hm|].
    by apply elem_of_nil in Hx.
  - repeat constructor.
  - exists s. split; [exact Hs | exact Hrec].
Defined.

Lemma show_country_comparison_cards_witness :
  ∃ cards,
    show_country_comparison Samples.no_where unit Samples.blank_plot
      Samples.dataset "GHI" "Box Plot" [Str "Togo"] =
    Ok (Comparison unit () cards)
    ∧ country_cards Samples.no_where Samples.dataset "GHI" [Str "Togo"] =
      Ok cards.
Proof.
  eexists. split; [reflexivity|].
  eapply (show_country_comparison_cards Samples.no_where unit
            Samples.blank_plot Samples.dataset
            [Str "Benin"; Str "Benin"; Str "Togo"] "GHI" "Box Plot").
  - apply (bool_decide_unpack _). vm_compute. exact I.
  - right. right. left.
  - reflexivity.
Defined.

(** ** Bounds and totals of the ranks *)

Section RankTotals.

Implicit Types (vals : list fval) (v x y : fval) (aggs : list Agg).

Lemma weight_le_2 v x : (weight v x ≤ 2)%nat.
Proof.
  unfold weight, fgtb.
  destruct (fltb v x) eqn:Hlt, (feqb x v) eqn:Heq; simpl; try lia.
  destruct v as [| |qv|], x as [| |qx|]; simpl in *; try done.
  Qbool. lra.
Qed.

Lemma weight_self v : isnan v = false → weight v v = 1%nat.
Proof.
  intros Hv. unfold weight, fgtb. by rewrite fltb_irrefl, feqb_refl.
Qed.

Lemma sum_list_const {A} (n : nat) (l : list A) :
  sum_list ((λ _, n) <$> l) = (n * length l)%nat.
Proof.
  induction l as [|z l IH]; [simpl; lia|].
  rewrite fmap_cons. change (sum_list (n :: ((λ _, n) <$> l)))
    with (n + sum_list ((λ _ : A, n) <$> l))%nat.
  rewrite IH. simpl. lia.
Qed.

(** Twice the rank of an entry of the series lies between 2 and twice the
    length of the series. *)
Lemma rank_weight_bounds vals v :
  v ∈ vals → isnan v = false →
  (1 ≤ sum_list (weight v <$> vals) < 2 * length vals)%nat.
Proof.
  intros Hin Hv. split.
  - pose proof (sum_list_strict (λ _, 0%nat) (weight v) vals v) as Hlt.
    rewrite sum_list_const in Hlt.
    assert (0 < sum_list (weight v <$> vals))%nat; [|lia].
    replace 0%nat with (0 * length vals)%nat by lia.
    apply Hlt; [intros; lia | done | rewrite weight_self by done; lia].
  - rewrite <- (sum_list_const 2 vals).
    apply sum_list_strict with v; [apply weight_le_2 | done |].
    rewrite weight_self by done. lia.
Qed.

Lemma rank_desc_bounds vals v :
  v ∈ vals → isnan v = false →
  ∃ p, rank_desc vals v = Fin p
     ∧ (1 <= p <= inject_Z (Z.of_nat (length vals)))%Q.
Proof.
  intros Hin Hv. unfold rank_desc. rewrite Hv. eexists. split; [done|].
  rewrite rank_weight.
  pose proof (rank_weight_bounds vals v Hin Hv).
  unfold Qle, inject_Z. simpl. lia.
Qed.

Lemma Forall_three {A} (P : A → Prop) (a b c : A) :
  P a → P b → P c → Forall P [a; b; c].
Proof. intros. by repeat apply Forall_cons_2. Qed.

(** Every rank and every score of the table that is not NaN lies between
    1 and the number of groups. *)
Theorem rankings_bounds aggs (r : Ranked) :
  r ∈ rankings aggs →
  Forall (λ f : fval,
            isnan f = true
            ∨ ∃ p, f = Fin p
                 ∧ (1 <= p <= inject_Z (Z.of_nat (length aggs)))%Q)
         [PotentialRank r; StabilityRank r; OverallScore r].
Proof.
  intros [i Hr]%list_elem_of_lookup.
  destruct (aggs !! i) as [g|] eqn:Hg;
    [|unfold rankings in Hr; by rewrite !list_lookup_fmap, Hg in Hr].
  rewrite (rankings_lookup aggs i g Hg) in Hr. cbv zeta in Hr.
  injection Hr as <-.
  cbn [PotentialRank StabilityRank OverallScore Average Stability round_row].
  set (avgs := Average <$> (round_row <$> aggs)).
  set (stabs := Stability <$> (round_row <$> aggs)).
  assert (length avgs = length aggs) as Hla
    by (unfold avgs; by rewrite !length_fmap).
  assert (length stabs = length aggs) as Hls
    by (unfold stabs; by rewrite !length_fmap).
  assert (round2 (Average g) ∈ avgs) as Hain.
  { apply list_elem_of_lookup. exists i. unfold avgs.
    by rewrite !list_lookup_fmap, Hg. }
  assert (round2 (Stability g) ∈ stabs) as Hsin.
  { apply list_elem_of_lookup. exists i. unfold stabs.
    by rewrite !list_lookup_fmap, Hg. }
  assert (∀ vals v, v ∈ vals → length vals = length aggs →
            isnan (rank_desc vals v) = true
            ∨ ∃ p, rank_desc vals v = Fin p
                 ∧ (1 <= p <= inject_Z (Z.of_nat (length aggs)))%Q) as Hone.
  { intros vals v Hin Hlen. destruct (isnan v) eqn:Hv.
    - left. by rewrite rank_desc_nan.
    - right. rewrite <- Hlen. by apply rank_desc_bounds. }
  destruct (Hone avgs _ Hain Hla) as [Hp|(p & Hp & Hpb)];
    destruct (Hone stabs _ Hsin Hls) as [Hq|(q & Hq & Hqb)].
  - apply Forall_three; [by left | by left |].
    left. by destruct (rank_desc avgs _), (rank_desc stabs _).
  - apply Forall_three; [by left | right; by exists q |].
    left. by destruct (rank_desc avgs _).
  - apply Forall_three; [right; by exists p | by left |].
    left. rewrite Hp. by destruct (rank_desc stabs _).
  - apply Forall_three; [right; by exists p | right; by exists q |].
    right. rewrite Hp, Hq. cbn [fadd fdiv_pos]. eexists. split; [done|].
    unfold Qdiv. change (/ (2 # 1))%Q with (1 # 2)%Q. lra.
Qed.

Lemma rankings_bounds_witness :
  ∃ r, rankings Samples.groups_xy !! 0%nat = Some r
     ∧ Forall (λ f : fval,
                 isnan f = true
                 ∨ ∃ p, f = Fin p ∧ (1 <= p <= inject_Z 2)%Q)
              [PotentialRank r; StabilityRank r; OverallScore r].
Proof.
  eexists. split; [reflexivity|].
  apply (rankings_bounds Samples.groups_xy). left.
Defined.

Lemma weight_pair x y :
  isnan x = false → isnan y = false → (weight x y + weight y x = 2)%nat.
Proof.
  unfold weight, fgtb.
  destruct x as [| |qx|], y as [| |qy|]; simpl; try done. intros _ _.
  destruct (Qltb qx qy) eqn:E1, (Qeq_bool qy qx) eqn:E2,
           (Qltb qy qx) eqn:E3, (Qeq_bool qx qy) eqn:E4;
    Qbool; first [lia | exfalso; lra].
Qed.

Lemma sum_list_plus {A} (f g : A → nat) (l : list A) :
  (sum_list (f <$> l) + sum_list (g <$> l))%nat
  = sum_list ((λ z, f z + g z)%nat <$> l).
Proof.
  induction l as [|z l IH]; [done|].
  rewrite !fmap_cons.
  change (sum_list (?a :: ?r)) with (a + sum_list r)%nat.
  rewrite <- IH. lia.
Qed.

Lemma sum_list_ext_in {A} (f g : A → nat) (l : list A) :
  (∀ z, z ∈ l → f z = g z) → sum_list (f <$> l) = sum_list (g <$> l).
Proof.
  intros Hfg. f_equal. apply list_fmap_ext. intros i z Hz.
  apply Hfg. by eapply list_elem_of_lookup_2.
Qed.

(** Over a series without NaN, the doubled ranks less one add up to the
    square of the length. *)
Lemma weight_total vals :
  Forall (λ v, isnan v = false) vals →
  sum_list ((λ v, sum_list (weight v <$> vals)) <$> vals)
  = (length vals * length vals)%nat.
Proof.
  induction 1 as [|x l Hx Hl IH]; [done|].
  rewrite fmap_cons.
  change (sum_list (?a :: ?r)) with (a + sum_list r)%nat.
  rewrite fmap_cons.
  change (sum_list (?a :: ?r)) with (a + sum_list r)%nat.
  rewrite (weight_self x Hx).
  rewrite (sum_list_ext_in
             (λ v, sum_list (weight v <$> x :: l))
             (λ v, weight v x + sum_list (weight v <$> l))%nat) by done.
  rewrite <- sum_list_plus, IH.
  assert (sum_list (weight x <$> l) + sum_list ((λ v, weight v x) <$> l)
          = 2 * length l)%nat as Hpairs.
  { rewrite sum_list_plus, <- (sum_list_const 2 l).
    apply sum_list_ext_in. intros z Hz. apply weight_pair; [done|].
    rewrite Forall_forall in Hl. by apply Hl. }
  simpl length. lia.
Qed.

Lemma fsum_Fin {A} (h : A → Q) (l : list A) :
  fsum ((λ z, Fin (h z)) <$> l) = Fin (foldr Qplus 0%Q (h <$> l)).
Proof.
  unfold fsum. induction l as [|z l IH]; [done|].
  rewrite !fmap_cons. cbn [foldr]. by rewrite IH.
Qed.

Lemma Qtotal_halves {A} (k : A → nat) (l : list A) :
  (foldr Qplus 0 ((λ z, Z.of_nat (k z) # 2) <$> l)
   == Z.of_nat (sum_list (k <$> l)) # 2)%Q.
Proof.
  induction l as [|z l IH]; [done|].
  rewrite !fmap_cons. cbn [foldr].
  change (sum_list (?a :: ?r)) with (a + sum_list r)%nat.
  rewrite IH. unfold Qeq, Qplus. simpl. lia.
Qed.

(** The ranks of a series without NaN add up to n (n + 1) / 2, ties or
    not. *)
Lemma rank_desc_total vals :
  Forall (λ v, isnan v = false) vals →
  ∃ q, fsum (rank_desc vals <$> vals) = Fin q
     ∧ (q == Z.of_nat (length vals * (length vals + 1)) # 2)%Q.
Proof.
  intros Hall.
  assert (rank_desc vals <$> vals =
          (λ v, Fin (Z.of_nat (sum_list (weight v <$> vals) + 1) # 2))
            <$> vals) as ->.
  { apply list_fmap_ext. intros i v Hv.
    apply list_elem_of_lookup_2 in Hv. rewrite Forall_forall in Hall.
    unfold rank_desc. by rewrite (Hall v Hv), rank_weight. }
  rewrite (fsum_Fin (λ v, Z.of_nat (sum_list (weight v <$> vals) + 1) # 2)).
  eexists. split; [done|].
  rewrite (Qtotal_halves (λ v, sum_list (weight v <$> vals) + 1)%nat).
  rewrite <- sum_list_plus, weight_total, sum_list_const by done.
  unfold Qeq. simpl. lia.
Qed.

(** When every group has an average and a stability, the potential ranks
    add up to n (n + 1) / 2 for n groups, and so do the stability ranks:
    the tie rule shares places out and loses none. *)
Theorem rankings_rank_totals aggs :
  Forall (λ g, isnan (Average g) = false ∧ isnan (Stability g) = false)
         aggs →
  fsame (fsum (PotentialRank <$> rankings aggs))
        (Fin (Z.of_nat (length aggs * (length aggs + 1)) # 2))
  ∧ fsame (fsum (StabilityRank <$> rankings aggs))
          (Fin (Z.of_nat (length aggs * (length aggs + 1)) # 2)).
Proof.
  intros Hall. rewrite rankings_potential, rankings_stability.
  set (avgs := Average <$> (round_row <$> aggs)).
  set (stabs := Stability <$> (round_row <$> aggs)).
  assert (length avgs = length aggs) as Hla
    by (unfold avgs; by rewrite !length_fmap).
  assert (length stabs = length aggs) as Hls
    by (unfold stabs; by rewrite !length_fmap).
  rewrite Forall_forall in Hall.
  destruct (rank_desc_total avgs) as (p & -> & Hp).
  { unfold avgs. rewrite <- list_fmap_compose. apply Forall_fmap.
    apply Forall_forall. intros g Hg. simpl. rewrite isnan_round2.
    by apply Hall. }
  destruct (rank_desc_total stabs) as (q & -> & Hq).
  { unfold stabs. rewrite <- list_fmap_compose. apply Forall_fmap.
    apply Forall_forall. intros g Hg. simpl. rewrite isnan_round2.
    by apply Hall. }
  rewrite Hla in Hp. rewrite Hls in Hq. by split.
Qed.

Lemma rankings_rank_totals_witness :
  fsame (fsum (PotentialRank <$> rankings Samples.groups_tied)) (Fin (6 # 2))
  ∧ fsame (fsum (StabilityRank <$> rankings Samples.groups_tied))
          (Fin (6 # 2)).
Proof.
  destruct (rankings_rank_totals Samples.groups_tied) as [Hp Hs].
  - repeat constructor.
  - split; [exact Hp | exact Hs].
Defined.

End RankTotals.
